(** * Spotify yearly recap: a model of [spotifydata.py]

    The program is one batch pipeline: load the JSON files of a folder,
    normalize every record to a canonical tuple, aggregate per year, report.
    This file embeds the four stages as Rocq functions and proves the
    properties stated for them.

    Conventions of the embedding:
    - a Python [str] is a Rocq [string] (characters with code points below
      256); a Python [int] is a [Z]; a Python [float] is a binary64 [float];
    - a [dict] decoded from JSON is a [gmap string value];
    - a [Counter] is an association list in insertion order, because
      [most_common] breaks ties by that order;
    - a function that may raise returns [option] or [result];
    - the functions of the standard library whose behaviour is not fixed by
      the program ([datetime.fromisoformat], [datetime.strptime], [repr] of
      floats and containers) are the fields of a [runtime] record that every
      definition takes as an argument. *)

From Stdlib Require Import ZArith Floats Ascii.
From stdpp Require Import gmap strings pretty list sorting.

#[local] Open Scope Z_scope.
#[local] Set Warnings "-register-all,-clear-no-such-hyp".

(** ** Python values and builtins *)

Module Py.

(** What [json.load] can return. *)
Inductive value : Type :=
| VNone
| VBool (b : bool)
| VInt (z : Z)
| VFloat (f : float)
| VStr (s : string)
| VList (l : list value)
| VDict (d : gmap string value).

(** A raw record is a decoded JSON object. *)
Abbreviation dict := (gmap string value).

(** [datetime.datetime]; the program reads [year] only. *)
Record datetime := Datetime {
  year : Z; month : Z; day : Z;
  hour : Z; minute : Z; second : Z; microsecond : Z;
  utcoffset : option Z
}.

(** The library functions the program calls without fixing their behaviour.
    [None] stands for a raised exception. *)
Record runtime := Runtime {
  fromisoformat : string → option datetime;
  strptime : string → string → option datetime;
  repr : value → string
}.

(** [ch.isspace()] for the code points below 256. *)
Definition isspace (a : ascii) : bool :=
  let n := Z.of_N (N_of_ascii a) in
  ((9 <=? n) && (n <=? 13)) || ((28 <=? n) && (n <=? 32))
  || (n =? 133) || (n =? 160).

Fixpoint lstrip (s : string) : string :=
  match s with
  | String a s' => if isspace a then lstrip s' else s
  | EmptyString => EmptyString
  end.

Definition rstrip (s : string) : string :=
  String.rev (lstrip (String.rev s)).

(** [s.strip()] *)
Definition strip (s : string) : string := rstrip (lstrip s).

(** [s.endswith(suffix)] *)
Definition endswith (s suffix : string) : bool :=
  String.prefix (String.rev suffix) (String.rev s).

(** [s[:-1]] *)
Fixpoint drop_last (s : string) : string :=
  match s with
  | EmptyString => EmptyString
  | String a EmptyString => EmptyString
  | String a s' => String a (drop_last s')
  end.

(** [bool(v)] *)
Definition truthy (v : value) : bool :=
  match v with
  | VNone => false
  | VBool b => b
  | VInt z => negb (z =? 0)
  | VFloat f => negb (PrimFloat.eqb f 0%float)
  | VStr s => negb (String.eqb s "")
  | VList l => match l with [] => false | _ => true end
  | VDict d => match map_to_list d with [] => false | _ => true end
  end.

(** [str(v)], which is also what an f-string field [{v}] renders. *)
Definition str (L : runtime) (v : value) : string :=
  match v with
  | VStr s => s
  | VInt z => pretty z
  | VBool true => "True"
  | VBool false => "False"
  | VNone => "None"
  | _ => repr L v
  end.

Definition digit (a : ascii) : option Z :=
  let n := Z.of_N (N_of_ascii a) in
  if (48 <=? n) && (n <=? 57) then Some (n - 48) else None.

(** The digits of an integer literal: decimal digits, with single
    underscores allowed between two digits. *)
Fixpoint int_digits (s : string) (acc : Z) (after_digit : bool) : option Z :=
  match s with
  | EmptyString => if after_digit then Some acc else None
  | String a s' =>
      match digit a with
      | Some d => int_digits s' (10 * acc + d) true
      | None =>
          if Ascii.eqb a "_" && after_digit then int_digits s' acc false
          else None
      end
  end.

(** [int(s)] for a string: surrounding white space, an optional sign, the
    digits. (CPython 3.11 and later also refuse literals of more than 4300
    digits.) *)
Definition int_of_str (s : string) : option Z :=
  match strip s with
  | String "+" r => int_digits r 0 false
  | String "-" r => Z.opp <$> int_digits r 0 false
  | t => int_digits t 0 false
  end.

(** [int(x)] for a float: truncation toward zero; raises on nan and on the
    infinities. *)
Definition int_of_float (f : float) : option Z :=
  match Prim2SF f with
  | S754_zero _ => Some 0
  | S754_infinity _ | S754_nan => None
  | S754_finite s m e =>
      let a := if 0 <=? e then Z.pos m * 2 ^ e else Z.pos m / 2 ^ (- e) in
      Some (if s then - a else a)
  end.

(** [int(v)]; [None] stands for the [TypeError] or [ValueError]. *)
Definition int (v : value) : option Z :=
  match v with
  | VInt z => Some z
  | VBool b => Some (if b then 1 else 0)
  | VFloat f => int_of_float f
  | VStr s => int_of_str s
  | VNone | VList _ | VDict _ => None
  end.

End Py.
Import Py.

(** ** Configuration: the module-level constants *)

Record config := Config {
  DATA_FOLDER : string;
  TOP_N : nat;
  SAVE_CSV : bool;
  INCLUDE_PODCASTS_AUDIOBOOKS : bool
}.

(** The values the source assigns. *)
Definition source_config : config :=
  {| DATA_FOLDER := "./spotify_data";
     TOP_N := 10;
     SAVE_CSV := true;
     INCLUDE_PODCASTS_AUDIOBOOKS := false |}.

(** ** Record normalizer *)

(** What [normalize_record] returns:
    [(year, item_type, artist_key, item_key, ms)]. *)
Definition canonical : Type := Z * string * string * string * Z.

Definition ev_year (e : canonical) : Z := e.1.1.1.1.
Definition ev_type (e : canonical) : string := e.1.1.1.2.
Definition ev_artist (e : canonical) : string := e.1.1.2.
Definition ev_item (e : canonical) : string := e.1.2.
Definition ev_ms (e : canonical) : Z := e.2.

(** [d[k] in (None, "", "null")] *)
Definition is_blank (v : value) : bool :=
  match v with
  | VNone => true
  | VStr s => String.eqb s "" || String.eqb s "null"
  | _ => false
  end.

Fixpoint safe_get (d : dict) (keys : list string) : option value :=
  match keys with
  | [] => None
  | k :: keys' =>
      match d !! k with
      | Some v => if negb (is_blank v) then Some v else safe_get d keys'
      | None => safe_get d keys'
      end
  end.

(** The [for fmt in (...)] loop of [parse_dt]: the first format that
    [strptime] accepts. *)
Fixpoint try_formats (L : runtime) (ts : string) (fmts : list string)
  : option datetime :=
  match fmts with
  | [] => None
  | fmt :: fmts' =>
      match strptime L ts fmt with
      | Some dt => Some dt
      | None => try_formats L ts fmts'
      end
  end.

Definition parse_dt (L : runtime) (ts : value) : option datetime :=
  let ts := strip (str L ts) in
  let ts := if endswith ts "Z" then drop_last ts else ts in
  match fromisoformat L ts with
  | Some dt => Some dt
  | None => try_formats L ts ["%Y-%m-%d %H:%M"; "%Y-%m-%dT%H:%M:%S"]
  end.

Definition ts_keys : list string :=
  ["ts"; "endTime"; "timestamp"; "played_at"].
Definition ms_keys : list string :=
  ["ms_played"; "msPlayed"; "play_duration_ms"].
Definition track_keys : list string :=
  ["master_metadata_track_name"; "trackName"; "track"; "track_name"; "name"].
Definition artist_keys : list string :=
  ["master_metadata_album_artist_name"; "artistName"; "artist";
   "artist_name"; "master_metadata_artist_name"].

(** [ms = int(ms) if ms is not None else 0], with [except: ms = 0]. *)
Definition coerce_ms (ms : option value) : Z :=
  match ms with
  | Some v => match int v with Some z => z | None => 0 end
  | None => 0
  end.

(** [a and b] on two probe results: the two values when both are present
    and truthy. *)
Definition both (a b : option value) : option (value * value) :=
  match a, b with
  | Some x, Some y => if truthy x && truthy y then Some (x, y) else None
  | _, _ => None
  end.

(** The tuple the three classification branches return: [group] and [item]
    are the values the f-string [f"{group} - {item}"] prints, in that order. *)
Definition labelled (L : runtime) (dt : datetime) (item_type : string)
    (group item : value) (ms : Z) : canonical :=
  let item_key := str L group +:+ " - " +:+ str L item in
  let artist_key := strip (str L group) in
  (year dt, item_type, artist_key, strip item_key, ms).

Definition normalize_record (L : runtime) (cfg : config) (r : dict)
  : option canonical :=
  let ts := safe_get r ts_keys in
  let dt := match ts with Some ts => parse_dt L ts | None => None end in
  match dt with
  | None => None
  | Some dt =>
      let ms := coerce_ms (safe_get r ms_keys) in
      if ms <=? 0 then None
      else
        let track := safe_get r track_keys in
        let artist := safe_get r artist_keys in
        match both track artist with
        | Some (track, artist) => Some (labelled L dt "song" artist track ms)
        | None =>
            if INCLUDE_PODCASTS_AUDIOBOOKS cfg then
              let ep := safe_get r ["episode_name"] in
              let show := safe_get r ["episode_show_name"] in
              match both ep show with
              | Some (ep, show) => Some (labelled L dt "podcast" show ep ms)
              | None =>
                  let ab := safe_get r ["audiobook_title"] in
                  let ch := safe_get r ["audiobook_chapter_title"] in
                  match both ab ch with
                  | Some (ab, ch) =>
                      Some (labelled L dt "audiobook" ab ch ms)
                  | None => None
                  end
              end
            else None
        end
  end.

(** ** Record loader *)

(** What happens when the program opens one globbed path and hands the file to
    [json.load]: [open] raises (it is outside the [try]), [json.load] raises
    (inside the [try]), or a payload is decoded. *)
Inductive file_outcome :=
| OpenFails
| LoadFails
| Loaded (data : value).

(** The file system as the loader sees it. [glob_json folder] is the list
    [glob.glob(os.path.join(folder, "**", "*.json"), recursive=True)]. *)
Record world := World {
  glob_json : string → list string;
  read_json : string → file_outcome
}.

(** The exceptions that leave [load_streaming_history], by the place that
    raises them: [FileNotFoundError msg] is the [raise] statement of the
    loader, [OSError path] is whatever [open(path)] raises. *)
Inductive exn :=
| FileNotFoundError (msg : string)
| OSError (path : string).

Inductive result (A : Type) :=
| Raise (e : exn)
| Return (a : A).
Arguments Raise {A} e.
Arguments Return {A} a.

(** [r] when [isinstance(r, dict)]. *)
Definition as_dict (r : value) : option dict :=
  match r with VDict d => Some d | _ => None end.

(** The body of the [for p in paths] loop after a successful [json.load]: the
    records the payload [data] appends. *)
Definition payload_records (data : value) : list dict :=
  let data :=
    match data with
    | VDict d =>
        match d !! "history" with
        | Some (VList l) => VList l
        | _ => data
        end
    | _ => data
    end in
  match data with
  | VList l => omap as_dict l
  | _ => []
  end.

Fixpoint load_loop (W : world) (paths : list string) (records : list dict)
  : result (list dict) :=
  match paths with
  | [] => Return records
  | p :: paths' =>
      match read_json W p with
      | OpenFails => Raise (OSError p)
      | LoadFails => load_loop W paths' records
      | Loaded data => load_loop W paths' (records ++ payload_records data)
      end
  end.

(** [sorted(set(l))] on strings. *)
Definition sorted_set (l : list string) : list string :=
  merge_sort String.le (elements (list_to_set l : gset string)).

Definition no_input_error (folder : string) : exn :=
  FileNotFoundError ("No .json files found in " +:+ folder +:+ ".").

Definition load_streaming_history (W : world) (folder : string)
  : result (list dict) :=
  let paths := sorted_set (glob_json W folder) in
  match paths with
  | [] => Raise (no_input_error folder)
  | _ => load_loop W paths []
  end.

(** ** Aggregator *)

(** Insertion-ordered dictionaries, as association lists without repeated
    keys. [upsert f l k] is [l[k] = f(l.get(k))]: the value is replaced in
    place when [k] is present and appended at the end otherwise. *)
Section Assoc.
Context {K V : Type} `{EqDecision K}.

Fixpoint assoc (l : list (K * V)) (k : K) : option V :=
  match l with
  | [] => None
  | (k', v) :: l' => if decide (k' = k) then Some v else assoc l' k
  end.

Fixpoint upsert (f : option V → V) (l : list (K * V)) (k : K)
  : list (K * V) :=
  match l with
  | [] => [(k, f None)]
  | (k', v) :: l' =>
      if decide (k' = k) then (k', f (Some v)) :: l'
      else (k', v) :: upsert f l' k
  end.
End Assoc.

(** [collections.Counter] with string or integer keys. *)
Abbreviation Counter K := (list (K * Z)).

(** [c[k]]: a missing key counts 0 (and is not inserted). *)
Definition counter_get {K} `{EqDecision K} (c : Counter K) (k : K) : Z :=
  default 0 (assoc c k).

(** [c[k] += n] *)
Definition counter_add {K} `{EqDecision K} (c : Counter K) (k : K) (n : Z)
  : Counter K :=
  upsert (λ o, default 0 o + n) c k.

(** [d[y][k] += n] on a [defaultdict(Counter)]: a missing [y] is first bound
    to an empty counter. *)
Definition dd_add {K} `{EqDecision K}
    (d : list (Z * Counter K)) (y : Z) (k : K) (n : Z)
  : list (Z * Counter K) :=
  upsert (λ o, counter_add (default [] o) k n) d y.

(** [d[y]] read on a [defaultdict(Counter)]. *)
Definition dd_get {K} (d : list (Z * Counter K)) (y : Z) : Counter K :=
  default [] (assoc d y).

(** The four accumulators of [main] and its [usable] count. *)
Record totals := Totals {
  artist_ms : list (Z * Counter string);
  track_ms : list (Z * Counter string);
  year_total_ms : Counter Z;
  year_streams : Counter Z;
  usable : Z
}.

Definition no_totals : totals :=
  {| artist_ms := []; track_ms := []; year_total_ms := [];
     year_streams := []; usable := 0 |}.

(** Lines 115-121: what one canonical tuple adds. *)
Definition add_event (st : totals) (norm : canonical) : totals :=
  let '(year, item_type, artist_key, item_key, ms) := norm in
  {| artist_ms := dd_add (artist_ms st) year artist_key ms;
     track_ms := dd_add (track_ms st) year item_key ms;
     year_total_ms := counter_add (year_total_ms st) year ms;
     year_streams := counter_add (year_streams st) year 1;
     usable := usable st + 1 |}.

(** One turn of the [for r in records] loop. *)
Definition step (L : runtime) (cfg : config) (st : totals) (r : dict)
  : totals :=
  match normalize_record L cfg r with
  | None => st
  | Some norm => add_event st norm
  end.

Definition aggregate (L : runtime) (cfg : config) (records : list dict)
  : totals :=
  foldl (step L cfg) no_totals records.

(** The loop on the tuples alone: the fold of [add_event]. *)
Definition aggregate_events (events : list canonical) : totals :=
  foldl add_event no_totals events.

(** ** Reporter *)

(** [sorted(c.items(), key=itemgetter(1), reverse=True)]: a stable sort, so
    an entry moves in front of the entries with a strictly smaller count
    only. *)
Fixpoint insert_desc {K} (x : K * Z) (l : list (K * Z)) : list (K * Z) :=
  match l with
  | [] => [x]
  | y :: l' => if x.2 <? y.2 then y :: insert_desc x l' else x :: l
  end.

Definition sorted_desc {K} (c : Counter K) : list (K * Z) :=
  foldr insert_desc [] c.

(** [c.most_common(n)]; [None] is the call without argument. With a number,
    CPython runs [heapq.nlargest(n, c.items(), key=itemgetter(1))], which the
    library documents as [sorted(..., reverse=True)[:n]]. *)
Definition most_common {K} (c : Counter K) (n : option nat) : list (K * Z) :=
  match n with
  | None => sorted_desc c
  | Some n => take n (sorted_desc c)
  end.

(** What the program prints, one constructor per [print] call. The hours a
    line shows are [ms_to_hours] of the milliseconds it carries; the
    formatting of that float is not modelled. *)
Inductive line :=
| NoUsableRecords
| Banner
| YearHeader (y : Z)
| TotalListening (ms : Z)
| TotalStreams (n : Z)
| TopArtistsHeader (n : nat)
| ArtistLine (a : string) (ms : Z)
| TopSongsHeader (n : nat)
| SongLine (s : string) (ms : Z)
| BlankLine
| SavedCsvs.

(** The rows of a written file: the header, a [most_common] entry, a row of
    [year_totals.csv]. *)
Inductive row :=
| Header (columns : list string)
| Entry (k : string) (v : Z)
| YearRow (y total_ms total_streams : Z).

Inductive effect :=
| Print (l : line)
| Makedirs (path : string)
| WriteFile (path : string) (rows : list row).

Definition save_counter_csv (path : string) (counter : Counter string)
    (left right : string) : effect :=
  WriteFile path
    (Header [left; right]
     :: map (λ kv, Entry kv.1 kv.2) (most_common counter None)).

(** The listings of one year, as the report loop computes them. *)
Definition top_artists (cfg : config) (st : totals) (y : Z)
  : list (string * Z) :=
  most_common (dd_get (artist_ms st) y) (Some (TOP_N cfg)).

Definition top_songs (cfg : config) (st : totals) (y : Z)
  : list (string * Z) :=
  most_common (dd_get (track_ms st) y) (Some (TOP_N cfg)).

(** The body of [for y in years]. *)
Definition report_year (cfg : config) (st : totals) (y : Z) : list effect :=
  [Print (YearHeader y);
   Print (TotalListening (counter_get (year_total_ms st) y));
   Print (TotalStreams (counter_get (year_streams st) y));
   Print (TopArtistsHeader (TOP_N cfg))]
  ++ map (λ kv, Print (ArtistLine kv.1 kv.2)) (top_artists cfg st y)
  ++ [Print (TopSongsHeader (TOP_N cfg))]
  ++ map (λ kv, Print (SongLine kv.1 kv.2)) (top_songs cfg st y)
  ++ [Print BlankLine]
  ++ (if SAVE_CSV cfg then
        [save_counter_csv ("out/" +:+ pretty y +:+ "_top_artists.csv")
           (dd_get (artist_ms st) y) "artist" "ms_listened";
         save_counter_csv ("out/" +:+ pretty y +:+ "_top_songs.csv")
           (dd_get (track_ms st) y) "song" "ms_listened"]
      else []).

(** [sorted(year_total_ms.keys())] *)
Definition years_of (st : totals) : list Z :=
  merge_sort Z.le (year_total_ms st).*1.

Definition year_row (st : totals) (y : Z) : row :=
  YearRow y (counter_get (year_total_ms st) y)
    (counter_get (year_streams st) y).

(** Lines 123-156. *)
Definition report (cfg : config) (st : totals) : list effect :=
  if usable st =? 0 then [Print NoUsableRecords]
  else
    let years := years_of st in
    [Print Banner]
    ++ (if SAVE_CSV cfg then [Makedirs "out"] else [])
    ++ concat (map (report_year cfg st) years)
    ++ (if SAVE_CSV cfg then
          [WriteFile "out/year_totals.csv"
             (Header ["year"; "total_ms"; "total_hours"; "total_streams"]
              :: map (year_row st) years);
           Print SavedCsvs]
        else []).

(** [main]: the effects it performs when it returns, or the exception that
    ends it. *)
Definition main (L : runtime) (cfg : config) (W : world)
  : result (list effect) :=
  match load_streaming_history W (DATA_FOLDER cfg) with
  | Raise e => Raise e
  | Return records => Return (report cfg (aggregate L cfg records))
  end.

(** ** A reference runtime

    An executable instance of [runtime], to run the pipeline on concrete
    records. It reads the spellings the library documents for
    [datetime.fromisoformat] up to CPython 3.10,
    [YYYY-MM-DD[*HH[:MM[:SS[.fff[fff]]]][+HH:MM]]], and the two [strptime]
    formats of [parse_dt]. [repr] of floats and containers is not reproduced:
    the instance is meant for records whose probed fields are strings,
    integers, booleans or null. *)

Module Reference.

Definition digits2 (s : string) : option (Z * string) :=
  match s with
  | String a (String b r) =>
      match digit a, digit b with
      | Some x, Some y => Some (10 * x + y, r)
      | _, _ => None
      end
  | _ => None
  end.

Definition digits4 (s : string) : option (Z * string) :=
  match digits2 s with
  | Some (hi, r) =>
      match digits2 r with
      | Some (lo, r') => Some (100 * hi + lo, r')
      | None => None
      end
  | None => None
  end.

(** One or two digits, as many as there are. *)
Definition digits12 (s : string) : option (Z * string) :=
  match digits2 s with
  | Some res => Some res
  | None =>
      match s with
      | String a r =>
          match digit a with Some x => Some (x, r) | None => None end
      | EmptyString => None
      end
  end.

Definition expect (c : ascii) (s : string) : option string :=
  match s with
  | String a r => if Ascii.eqb a c then Some r else None
  | EmptyString => None
  end.

Definition leap (y : Z) : bool :=
  (y mod 4 =? 0) && (negb (y mod 100 =? 0) || (y mod 400 =? 0)).

Definition days_in_month (y m : Z) : Z :=
  if m =? 2 then (if leap y then 29 else 28)
  else if (m =? 4) || (m =? 6) || (m =? 9) || (m =? 11) then 30
  else 31.

(** The checks of the [datetime] constructor. *)
Definition make (y m d hh mm ss us : Z) (off : option Z) : option datetime :=
  if (1 <=? y) && (y <=? 9999) && (1 <=? m) && (m <=? 12)
     && (1 <=? d) && (d <=? days_in_month y m)
     && (hh <? 24) && (mm <? 60) && (ss <? 60)
  then Some (Datetime y m d hh mm ss us off)
  else None.

Definition date_part (s : string) : option (Z * Z * Z * string) :=
  match digits4 s with
  | Some (y, r) =>
      match expect "-" r with
      | Some r =>
          match digits2 r with
          | Some (m, r) =>
              match expect "-" r with
              | Some r =>
                  match digits2 r with
                  | Some (d, r) => Some (y, m, d, r)
                  | None => None
                  end
              | None => None
              end
          | None => None
          end
      | None => None
      end
  | None => None
  end.

(** A fraction of three or of six digits, in microseconds. *)
Definition fraction (s : string) : option (Z * string) :=
  match digits2 s with
  | Some (a, String c r) =>
      match digit c with
      | Some x =>
          let ms := 10 * a + x in
          match digits2 r with
          | Some (b, String e r') =>
              match digit e with
              | Some z => Some (1000 * ms + 10 * b + z, r')
              | None => None
              end
          | Some _ => None
          | None =>
              match r with
              | String e _ =>
                  match digit e with
                  | Some _ => None
                  | None => Some (1000 * ms, r)
                  end
              | EmptyString => Some (1000 * ms, r)
              end
          end
      | None => None
      end
  | _ => None
  end.

(** [HH[:MM[:SS[.fff[fff]]]]] and what follows it. *)
Definition time_part (s : string) : option (Z * Z * Z * Z * string) :=
  match digits2 s with
  | Some (hh, String ":" r) =>
      match digits2 r with
      | Some (mm, String ":" r) =>
          match digits2 r with
          | Some (ss, String "." r) =>
              match fraction r with
              | Some (us, r) => Some (hh, mm, ss, us, r)
              | None => None
              end
          | Some (ss, r) => Some (hh, mm, ss, 0, r)
          | None => None
          end
      | Some (mm, r) => Some (hh, mm, 0, 0, r)
      | None => None
      end
  | Some (hh, r) => Some (hh, 0, 0, 0, r)
  | None => None
  end.

(** Nothing, or [+HH:MM] or [-HH:MM]: the offset in seconds. *)
Definition offset_part (s : string) : option (option Z) :=
  match s with
  | EmptyString => Some None
  | String sign r =>
      if Ascii.eqb sign "+" || Ascii.eqb sign "-" then
        match digits2 r with
        | Some (hh, String ":" r) =>
            match digits2 r with
            | Some (mm, EmptyString) =>
                if (hh <? 24) && (mm <? 60) then
                  let off := 3600 * hh + 60 * mm in
                  Some (Some (if Ascii.eqb sign "-" then - off else off))
                else None
            | _ => None
            end
        | _ => None
        end
      else None
  end.

Definition ref_fromisoformat (s : string) : option datetime :=
  match date_part s with
  | Some (y, m, d, EmptyString) => make y m d 0 0 0 0 None
  | Some (y, m, d, String _ r) =>
      match time_part r with
      | Some (hh, mm, ss, us, r) =>
          match offset_part r with
          | Some off => make y m d hh mm ss us off
          | None => None
          end
      | None => None
      end
  | None => None
  end.

(** The date fields of both formats: [%Y-%m-%d]. *)
Definition ymd (s : string) : option (Z * Z * Z * string) :=
  match digits4 s with
  | Some (y, String "-" r) =>
      match digits12 r with
      | Some (m, String "-" r) =>
          match digits12 r with
          | Some (d, r) => Some (y, m, d, r)
          | None => None
          end
      | _ => None
      end
  | _ => None
  end.

(** [%H:%M], and [:%S] when [with_seconds]; the string ends there. *)
Definition hms (with_seconds : bool) (s : string) : option (Z * Z * Z) :=
  match digits12 s with
  | Some (hh, String ":" r) =>
      match digits12 r with
      | Some (mm, EmptyString) =>
          if with_seconds then None else Some (hh, mm, 0)
      | Some (mm, String ":" r) =>
          if with_seconds then
            match digits12 r with
            | Some (ss, EmptyString) => Some (hh, mm, ss)
            | _ => None
            end
          else None
      | _ => None
      end
  | _ => None
  end.

Definition ref_strptime (s fmt : string) : option datetime :=
  if String.eqb fmt "%Y-%m-%d %H:%M" then
    match ymd s with
    | Some (y, m, d, String a r) =>
        if isspace a then
          match hms false (lstrip r) with
          | Some (hh, mm, ss) => make y m d hh mm ss 0 None
          | None => None
          end
        else None
    | _ => None
    end
  else if String.eqb fmt "%Y-%m-%dT%H:%M:%S" then
    match ymd s with
    | Some (y, m, d, String a r) =>
        if Ascii.eqb a "T" || Ascii.eqb a "t" then
          match hms true r with
          | Some (hh, mm, ss) => make y m d hh mm ss 0 None
          | None => None
          end
        else None
    | _ => None
    end
  else None.

Definition cpython : runtime :=
  {| fromisoformat := ref_fromisoformat;
     strptime := ref_strptime;
     repr := λ _, "" |}.

End Reference.
Import Reference.

(** ** Sample inputs *)

(** The record of the normalizer's round-trip property. *)
Definition record_song_a : dict :=
  {[ "ts" := VStr "2023-05-01T10:00:00Z";
     "ms_played" := VInt 180000;
     "trackName" := VStr "Song A";
     "artistName" := VStr "Artist X" ]}.

(** The same play, exported with the string [null] under [ts] and the
    timestamp under [endTime]. *)
Definition record_null_ts : dict :=
  {[ "ts" := VStr "null";
     "endTime" := VStr "2023-05-01T10:00:00Z";
     "ms_played" := VInt 180000;
     "trackName" := VStr "Song A";
     "artistName" := VStr "Artist X" ]}.

(** A play of [ms] milliseconds of the track [Song] of [artist], in 2023. *)
Definition song (artist : string) (ms : Z) : dict :=
  {[ "ts" := VStr "2023-05-01T10:00:00Z";
     "ms_played" := VInt ms;
     "trackName" := VStr "Song";
     "artistName" := VStr artist ]}.

(** A folder with a wrapped file, a bare list, a file that does not decode
    and an object without [history]. *)
Definition sample_world : world :=
  {| glob_json := λ _, ["d/b.json"; "d/a.json"; "d/c.json"; "d/b.json";
                        "d/e.json"];
     read_json := λ p,
       if String.eqb p "d/a.json" then
         Loaded (VDict {[ "history" := VList [VDict record_song_a; VInt 3] ]})
       else if String.eqb p "d/b.json" then
         Loaded (VList [VStr "x"; VDict record_null_ts])
       else if String.eqb p "d/e.json" then
         Loaded (VDict {[ "records" := VList [VDict record_song_a] ]})
       else LoadFails |}.

(** ** The statements, in their own words *)

(** The first attempt of a list that succeeded. *)
Fixpoint first_some {A} (l : list (option A)) : option A :=
  match l with
  | [] => None
  | Some a :: _ => Some a
  | None :: l' => first_some l'
  end.

(** One probe: the value of field [k], unless it is missing or [skip]
    rejects it. *)
Definition probe (skip : value → bool) (d : dict) (k : string)
  : option value :=
  match d !! k with
  | Some v => if skip v then None else Some v
  | None => None
  end.

(** "The first present value among the ordered candidate fields" that [skip]
    does not reject. *)
Definition first_present (skip : value → bool) (d : dict)
    (keys : list string) : option value :=
  first_some (map (probe skip d) keys).

(** "Non-null, non-empty", read literally: JSON [null] and the empty string
    are rejected, every other value is taken. *)
Definition null_or_empty (v : value) : bool :=
  match v with
  | VNone => true
  | VStr s => String.eqb s ""
  | _ => false
  end.

(** The string [parse_dt] hands to the parsers: [str(ts).strip()] without one
    trailing [Z]. *)
Definition timestamp_text (L : runtime) (ts : value) : string :=
  let s := strip (str L ts) in
  if endswith s "Z" then drop_last s else s.

(** The records of a list payload that are objects. *)
Definition object_elements (l : list value) : list dict := omap as_dict l.

(** What one candidate file contributes to the loader's output: the object
    elements of a bare list, the object elements of the list an object holds
    under [history], nothing for any other payload and for a file that does
    not decode. *)
Definition contribution (o : file_outcome) : list dict :=
  match o with
  | Loaded (VList l) => object_elements l
  | Loaded (VDict d) =>
      match d !! "history" with
      | Some (VList l) => object_elements l
      | _ => []
      end
  | _ => []
  end.

(** The loader's candidate files: the globbed paths, deduplicated, in sorted
    order. *)
Definition candidates (W : world) (folder : string) : list string :=
  sorted_set (glob_json W folder).

(** The sum of a list of integers. *)
Definition sum_Z (l : list Z) : Z := foldr Z.add 0 l.

(** "The sum of all the values" of a counter. *)
Definition counter_total {K} (c : Counter K) : Z := sum_Z c.*2.

(** "The sum of [duration_ms] over the events". *)
Definition sum_ms (events : list canonical) : Z := sum_Z (ev_ms <$> events).

(** The events of one year, of one artist of a year, of one track of a
    year. *)
Definition of_year (y : Z) (events : list canonical) : list canonical :=
  filter (λ e, ev_year e = y) events.

Definition of_artist (y : Z) (a : string) (events : list canonical)
  : list canonical :=
  filter (λ e, ev_year e = y ∧ ev_artist e = a) events.

Definition of_track (y : Z) (t : string) (events : list canonical)
  : list canonical :=
  filter (λ e, ev_year e = y ∧ ev_item e = t) events.

(** The entries of a counter, each with its insertion rank. *)
Definition ranked_from {K} (i : nat) (c : Counter K) : list (nat * (K * Z)) :=
  zip (seq i (length c)) c.

Definition ranked {K} (c : Counter K) : list (nat * (K * Z)) :=
  ranked_from 0 c.

(** "Duration descending, then insertion order": [before x y] when the
    ranked entry [x] is listed before the ranked entry [y]. *)
Definition before {K} (x y : nat * (K * Z)) : Prop :=
  y.2.2 < x.2.2 ∨ (x.2.2 = y.2.2 ∧ (x.1 < y.1)%nat).

(** [listing] is the top-[n] listing of [c]: the first [n] entries of the one
    arrangement of the entries of [c] that [before] sorts. *)
Definition is_top_n {K} (c : Counter K) (n : nat) (listing : list (K * Z))
  : Prop :=
  ∃ order,
    order ≡ₚ ranked c ∧ StronglySorted before order
    ∧ listing = take n order.*2
    ∧ ∀ order', order' ≡ₚ ranked c → StronglySorted before order' →
                order' = order.

(** The insertion of [insert_desc] on entries of any type, with the count
    read by [val]. *)
Fixpoint insert_by {A} (val : A → Z) (x : A) (l : list A) : list A :=
  match l with
  | [] => [x]
  | y :: l' => if val x <? val y then y :: insert_by val x l' else x :: l
  end.


(** The distinct elements of a list, in the order of their first
    occurrence. *)
Definition first_seen {K} `{EqDecision K} (l : list K) : list K :=
  foldl (λ seen k, if decide (k ∈ seen) then seen else seen ++ [k]) [] l.

(** The paths of the files a list of effects writes, in order. *)
Definition written_paths (effects : list effect) : list string :=
  omap (λ eff, match eff with WriteFile path _ => Some path | _ => None end)
       effects.

(** The three kinds of path [main] writes to. *)
Definition artists_csv (y : Z) : string :=
  "out/" +:+ pretty y +:+ "_top_artists.csv".
Definition songs_csv (y : Z) : string :=
  "out/" +:+ pretty y +:+ "_top_songs.csv".
Definition totals_csv : string := "out/year_totals.csv".

(** A record whose first track candidate holds the number 0 and whose second
    holds a name. *)
Definition record_zero_track : dict :=
  <["master_metadata_track_name" := VInt 0]> record_song_a.

(** ** Running the model *)

Example normalize_song_a :
  normalize_record cpython source_config record_song_a
  = Some (2023, "song", "Artist X", "Artist X - Song A", 180000).
Proof. vm_compute. reflexivity. Qed.

Example parse_samples :
  ref_fromisoformat "2023-05-01T10:00:00" = Some (Datetime 2023 5 1 10 0 0 0 None)
  ∧ ref_fromisoformat "2023-05-01" = Some (Datetime 2023 5 1 0 0 0 0 None)
  ∧ ref_fromisoformat "2023-05-01 10:00:00.123+02:00"
    = Some (Datetime 2023 5 1 10 0 0 123000 (Some 7200))
  ∧ ref_fromisoformat "2023-02-29" = None
  ∧ ref_fromisoformat "not-a-date" = None
  ∧ ref_strptime "2023-5-1 7:05" "%Y-%m-%d %H:%M" = Some (Datetime 2023 5 1 7 5 0 0 None)
  ∧ ref_strptime "not-a-date" "%Y-%m-%d %H:%M" = None
  ∧ ref_strptime "not-a-date" "%Y-%m-%dT%H:%M:%S" = None
  ∧ int_of_str " -1_000 " = Some (-1000)
  ∧ int_of_str "1__0" = None
  ∧ int_of_str "12.5" = None
  ∧ strip "  a b  " = "a b"
  ∧ @pretty Z _ (-15) = "-15".
Proof. vm_compute. repeat split. Qed.

Example end_to_end_three_plays :
  top_artists (Config "./spotify_data" 1 true false)
    (aggregate cpython source_config
       [song "Artist X" 100000; song "Artist X" 200000;
        song "Artist X" 300000]) 2023
  = [("Artist X", 600000)].
Proof. by vm_compute. Qed.

Example most_common_ties :
  most_common [("a", 5); ("b", 7); ("c", 5); ("d", 7); ("e", 1)] (Some 3%nat)
  = [("b", 7); ("d", 7); ("a", 5)]
  ∧ most_common [("a", 5); ("b", 7); ("c", 5); ("d", 7); ("e", 1)] None
    = [("b", 7); ("d", 7); ("a", 5); ("c", 5); ("e", 1)].
Proof. by vm_compute. Qed.

Example discarded_records :
  normalize_record cpython source_config (<["ms_played" := VInt 0]> record_song_a)
  = None
  ∧ normalize_record cpython source_config (delete "ms_played" record_song_a)
    = None
  ∧ normalize_record cpython source_config
      (<["ts" := VStr "not-a-date"]> record_song_a) = None
  ∧ normalize_record cpython source_config (delete "trackName" record_song_a)
    = None
  ∧ normalize_record cpython source_config
      (<["ms_played" := VStr " 2_500 "]> record_song_a)
    = Some (2023, "song", "Artist X", "Artist X - Song A", 2500)
  ∧ normalize_record cpython source_config
      (<["ms_played" := VFloat 1500.75%float]> record_song_a)
    = Some (2023, "song", "Artist X", "Artist X - Song A", 1500).
Proof. by vm_compute. Qed.

(** ** Properties of the string builtins *)

Section Strings.

Lemma append_nil_l (s : string) : "" +:+ s = s.
Proof. reflexivity. Qed.

Lemma append_cons (a : ascii) (s t : string) :
  String a s +:+ t = String a (s +:+ t).
Proof. reflexivity. Qed.

Lemma append_empty_r (s : string) : s +:+ "" = s.
Proof.
  induction s as [|a s IH]; [done|]. by rewrite append_cons, IH.
Qed.

Lemma rev_app_append (s1 s2 acc : string) :
  String.rev_app (s1 +:+ s2) acc = String.rev_app s2 (String.rev_app s1 acc).
Proof.
  revert acc. induction s1 as [|a s1 IH]; intros acc; [done|].
  rewrite append_cons. simpl. apply IH.
Qed.

Lemma rev_app_rev_app (s a b : string) :
  String.rev_app (String.rev_app s a) b = String.rev_app a (s +:+ b).
Proof.
  revert a b. induction s as [|c s IH]; intros a b; [done|].
  simpl. by rewrite IH, append_cons.
Qed.

Lemma rev_involutive (s : string) : String.rev (String.rev s) = s.
Proof.
  unfold String.rev. rewrite rev_app_rev_app. simpl. apply append_empty_r.
Qed.

Lemma rev_snoc (s : string) (a : ascii) :
  String.rev (s +:+ String a "") = String a (String.rev s).
Proof. unfold String.rev. by rewrite rev_app_append. Qed.

Lemma rev_cons (s : string) (a : ascii) :
  String.rev (String a s) = String.rev s +:+ String a "".
Proof.
  rewrite <- (rev_involutive (String.rev s +:+ String a "")).
  by rewrite rev_snoc, rev_involutive.
Qed.

Lemma drop_last_snoc (s : string) (a : ascii) :
  drop_last (s +:+ String a "") = s.
Proof.
  induction s as [|c s IH]; [done|].
  rewrite append_cons. simpl. rewrite IH.
  destruct s; [done|]. by rewrite append_cons.
Qed.

(** [endswith s "Z"] holds exactly of the strings [t +:+ "Z"], and
    [drop_last] gives [t] back. *)
Lemma endswith_Z_iff (s : string) :
  endswith s "Z" = true ↔ ∃ t, s = t +:+ "Z".
Proof.
  unfold endswith. split.
  - intros H. change (String.rev "Z") with "Z" in H.
    destruct (String.rev s) as [|a r] eqn:E; [done|].
    change (String.prefix "Z" (String a r))
      with (if Ascii.ascii_dec "Z" a then String.prefix "" r else false)
      in H.
    destruct (Ascii.ascii_dec "Z" a) as [<-|]; [|done].
    exists (String.rev r).
    by rewrite <- (rev_involutive s), E, rev_cons.
  - intros [t ->]. rewrite rev_snoc.
    change (String.rev "Z") with "Z".
    change (String.prefix "Z" (String "Z" (String.rev t)))
      with (if Ascii.ascii_dec "Z" "Z"
            then String.prefix "" (String.rev t) else false).
    destruct (Ascii.ascii_dec "Z" "Z"); [|done]. by destruct (String.rev t).
Qed.

End Strings.

(** ** Properties of the normalizer *)

Section Normalizer.

Context (L : runtime) (cfg : config).

Lemma safe_get_first_present (d : dict) (keys : list string) :
  safe_get d keys = first_present is_blank d keys.
Proof.
  unfold first_present. induction keys as [|k keys IH]; [done|].
  simpl. unfold probe at 1.
  destruct (d !! k) as [v|]; [|done]. by destruct (is_blank v).
Qed.

Lemma parse_dt_attempts (ts : value) :
  parse_dt L ts =
  let s := timestamp_text L ts in
  first_some [fromisoformat L s; strptime L s "%Y-%m-%d %H:%M";
              strptime L s "%Y-%m-%dT%H:%M:%S"].
Proof.
  unfold parse_dt, timestamp_text. simpl.
  destruct (fromisoformat L _); [done|].
  destruct (strptime L _ "%Y-%m-%d %H:%M"); [done|].
  by destruct (strptime L _ "%Y-%m-%dT%H:%M:%S").
Qed.

(** A trailing [Z] is stripped: a timestamp that reads [t +:+ "Z"] once the
    surrounding white space is gone is parsed as [t]. *)
Lemma timestamp_text_Z (ts : value) (t : string) :
  strip (str L ts) = t +:+ "Z" → timestamp_text L ts = t.
Proof.
  intros E. unfold timestamp_text. rewrite E.
  replace (endswith (t +:+ "Z") "Z") with true
    by (symmetry; apply endswith_Z_iff; eauto).
  apply drop_last_snoc.
Qed.

Lemma timestamp_text_no_Z (ts : value) :
  (∀ t, strip (str L ts) ≠ t +:+ "Z") →
  timestamp_text L ts = strip (str L ts).
Proof.
  intros H. unfold timestamp_text.
  destruct (endswith _ "Z") eqn:E; [|done].
  apply endswith_Z_iff in E as [t E]. by destruct (H t).
Qed.

(** The events [normalize_record] can return, read off its branches. *)
Lemma normalize_record_Some (r : dict) (e : canonical) :
  normalize_record L cfg r = Some e →
  ∃ ts dt,
    safe_get r ts_keys = Some ts ∧ parse_dt L ts = Some dt
    ∧ ev_year e = year dt
    ∧ ev_ms e = coerce_ms (safe_get r ms_keys) ∧ 0 < ev_ms e.
Proof.
  unfold normalize_record.
  destruct (safe_get r ts_keys) as [ts|]; [|done].
  destruct (parse_dt L ts) as [dt|] eqn:Hdt; [|done].
  destruct (coerce_ms (safe_get r ms_keys) <=? 0) eqn:Hms; [done|].
  apply Z.leb_gt in Hms.
  assert (∀ ty g i, e = labelled L dt ty g i (coerce_ms (safe_get r ms_keys))
            → ev_year e = year dt
              ∧ ev_ms e = coerce_ms (safe_get r ms_keys) ∧ 0 < ev_ms e)
    as Hlab by (by intros ty g i ->).
  destruct (both _ _) as [[track artist]|].
  { intros [= E]. exists ts, dt. symmetry in E.
    by destruct (Hlab _ _ _ E) as (?&?&?). }
  destruct (INCLUDE_PODCASTS_AUDIOBOOKS cfg); [|done].
  destruct (both _ _) as [[ep show]|].
  { intros [= E]. exists ts, dt. symmetry in E.
    by destruct (Hlab _ _ _ E) as (?&?&?). }
  destruct (both _ _) as [[ab ch]|]; [|done].
  intros [= E]. exists ts, dt. symmetry in E.
    by destruct (Hlab _ _ _ E) as (?&?&?).
Qed.

Lemma normalize_record_no_timestamp (r : dict) :
  safe_get r ts_keys = None → normalize_record L cfg r = None.
Proof. intros H. unfold normalize_record. by rewrite H. Qed.

Lemma normalize_record_unparsed (r : dict) (ts : value) :
  safe_get r ts_keys = Some ts → parse_dt L ts = None →
  normalize_record L cfg r = None.
Proof. intros H1 H2. unfold normalize_record. by rewrite H1, H2. Qed.


End Normalizer.

(** ** Blank values are absent values *)

Section Blank.

Context (L : runtime) (cfg : config).

Lemma safe_get_ext (d d' : dict) (keys : list string) :
  (∀ k, probe is_blank d k = probe is_blank d' k) →
  safe_get d keys = safe_get d' keys.
Proof.
  intros H. rewrite !safe_get_first_present. unfold first_present.
  f_equal. apply map_ext. auto.
Qed.

Lemma probe_delete_blank (d : dict) (k k' : string) (v : value) :
  d !! k = Some v → is_blank v = true →
  probe is_blank d k' = probe is_blank (delete k d) k'.
Proof.
  intros Hk Hv. unfold probe. destruct (decide (k = k')) as [<-|Hne].
  - by rewrite lookup_delete_eq, Hk, Hv.
  - by rewrite lookup_delete_ne.
Qed.

Lemma probe_insert_blank (d : dict) (k k' : string) (v w : value) :
  d !! k = Some v → is_blank v = true → is_blank w = true →
  probe is_blank d k' = probe is_blank (<[k:=w]> d) k'.
Proof.
  intros Hk Hv Hw. unfold probe. destruct (decide (k = k')) as [<-|Hne].
  - by rewrite lookup_insert_eq, Hk, Hv, Hw.
  - by rewrite lookup_insert_ne.
Qed.

Lemma safe_get_skip (d : dict) (k : string) (v : value) (keys : list string) :
  d !! k = Some v → is_blank v = true →
  safe_get d (k :: keys) = safe_get d keys.
Proof. intros Hk Hv. simpl. by rewrite Hk, Hv. Qed.

Lemma safe_get_missing (d : dict) (keys : list string) :
  (∀ k, k ∈ keys → d !! k = None) → safe_get d keys = None.
Proof.
  induction keys as [|k keys IH]; intros H; [done|]. simpl.
  rewrite (H k) by set_solver. apply IH. intros k' Hk'. apply H. set_solver.
Qed.

(** [normalize_record] reads its argument through [safe_get] only. *)
Lemma normalize_record_ext (r r' : dict) :
  (∀ keys, safe_get r keys = safe_get r' keys) →
  normalize_record L cfg r = normalize_record L cfg r'.
Proof. intros H. unfold normalize_record. by rewrite !H. Qed.

End Blank.

(** ** Claims about the normalizer *)

(** C2. The sample record with [ts="2023-05-01T10:00:00Z"], [ms_played=180000],
    [trackName="Song A"], [artistName="Artist X"] normalizes to
    [(2023, "song", "Artist X", "Artist X - Song A", 180000)], on every
    runtime whose [fromisoformat] reads ["2023-05-01T10:00:00"] as a date of
    the year 2023, whatever the configuration. *)
Theorem C2_normalize_sample (L : runtime) (cfg : config) (dt : datetime) :
  fromisoformat L "2023-05-01T10:00:00" = Some dt →
  year dt = 2023 →
  normalize_record L cfg record_song_a
  = Some (2023, "song", "Artist X", "Artist X - Song A", 180000).
Proof.
  intros Hiso Hyear. unfold normalize_record.
  assert (safe_get record_song_a ts_keys
          = Some (VStr "2023-05-01T10:00:00Z")) as -> by (by vm_compute).
  assert (parse_dt L (VStr "2023-05-01T10:00:00Z") = Some dt) as ->.
  { rewrite parse_dt_attempts.
    rewrite (timestamp_text_Z L _ "2023-05-01T10:00:00") by (by vm_compute).
    simpl. by rewrite Hiso. }
  assert (coerce_ms (safe_get record_song_a ms_keys) = 180000) as ->
    by (by vm_compute).
  assert (safe_get record_song_a track_keys = Some (VStr "Song A")) as ->
    by (by vm_compute).
  assert (safe_get record_song_a artist_keys = Some (VStr "Artist X")) as ->
    by (by vm_compute).
  simpl. unfold labelled. rewrite Hyear. simpl.
  repeat f_equal; by vm_compute.
Qed.

Lemma C2_normalize_sample_witness :
  normalize_record cpython source_config record_song_a
  = Some (2023, "song", "Artist X", "Artist X - Song A", 180000).
Proof.
  apply (C2_normalize_sample cpython source_config
           (Datetime 2023 5 1 10 0 0 0 None)); reflexivity.
Defined.

(** C5, as stated, fails: in [record_null_ts] the first present, non-null,
    non-empty timestamp candidate is the string [null] held by [ts], which no
    format parses, and yet the record is not discarded: the probe skipped
    [ts] and took [endTime]. *)
Lemma C5_literal_reading_fails :
  first_present null_or_empty record_null_ts ts_keys = Some (VStr "null")
  ∧ parse_dt cpython (VStr "null") = None
  ∧ safe_get record_null_ts ts_keys = Some (VStr "2023-05-01T10:00:00Z")
  ∧ normalize_record cpython source_config record_null_ts
    = Some (2023, "song", "Artist X", "Artist X - Song A", 180000).
Proof. by vm_compute. Qed.

(** C5, amended. The timestamp is the first candidate among [ts], [endTime],
    [timestamp], [played_at] whose value is present and is neither null, nor
    the empty string, nor the string [null]. Its text, without surrounding
    white space and without one trailing [Z], is tried with [fromisoformat],
    then with the format [%Y-%m-%d %H:%M], then with [%Y-%m-%dT%H:%M:%S].
    When no candidate is left or no parser accepts the text (as for
    [ts="not-a-date"]), the record is discarded, so every event carries the
    year of a parsed timestamp. *)
Theorem C5_timestamp_resolution (L : runtime) (cfg : config) (r : dict) :
  safe_get r ts_keys
  = first_present is_blank r ["ts"; "endTime"; "timestamp"; "played_at"]
  ∧ (∀ ts, parse_dt L ts
           = first_some
               [fromisoformat L (timestamp_text L ts);
                strptime L (timestamp_text L ts) "%Y-%m-%d %H:%M";
                strptime L (timestamp_text L ts) "%Y-%m-%dT%H:%M:%S"])
  ∧ (∀ ts t, strip (str L ts) = t +:+ "Z" → timestamp_text L ts = t)
  ∧ (∀ ts, (∀ t, strip (str L ts) ≠ t +:+ "Z") →
           timestamp_text L ts = strip (str L ts))
  ∧ (safe_get r ts_keys = None → normalize_record L cfg r = None)
  ∧ (∀ ts, safe_get r ts_keys = Some ts → parse_dt L ts = None →
           normalize_record L cfg r = None)
  ∧ (fromisoformat L "not-a-date" = None →
     strptime L "not-a-date" "%Y-%m-%d %H:%M" = None →
     strptime L "not-a-date" "%Y-%m-%dT%H:%M:%S" = None →
     r !! "ts" = Some (VStr "not-a-date") →
     normalize_record L cfg r = None)
  ∧ (∀ e, normalize_record L cfg r = Some e →
          ∃ ts dt, safe_get r ts_keys = Some ts ∧ parse_dt L ts = Some dt
                   ∧ ev_year e = year dt).
Proof.
  split; [apply safe_get_first_present|].
  split; [apply parse_dt_attempts|].
  split; [apply timestamp_text_Z|].
  split; [apply timestamp_text_no_Z|].
  split; [apply normalize_record_no_timestamp|].
  split; [apply normalize_record_unparsed|].
  split.
  - intros H1 H2 H3 Hts.
    apply (normalize_record_unparsed L cfg r (VStr "not-a-date")).
    + unfold ts_keys. simpl. by rewrite Hts.
    + rewrite parse_dt_attempts.
      assert (timestamp_text L (VStr "not-a-date") = "not-a-date") as ->
        by (by vm_compute).
      simpl. by rewrite H1, H2, H3.
  - intros e He.
    destruct (normalize_record_Some L cfg r e He) as (ts & dt & ? & ? & ? & _).
    eauto.
Qed.


(** C9. In every probe the string [null] counts as an absent field, exactly
    like null and the empty string: the probe passes to the next candidate,
    and normalizing the record gives what it gives once the field is removed,
    set to null or set to the empty string. This covers all the probes of
    [normalize_record] (timestamp, duration, track, artist, episode and show,
    audiobook and chapter). A record whose only timestamp candidate holds
    [null] is therefore discarded. *)
Theorem C9_null_string_is_absent (L : runtime) (cfg : config) (r : dict)
    (k : string) :
  r !! k = Some (VStr "null") →
  (∀ keys, safe_get r (k :: keys) = safe_get r keys)
  ∧ (∀ keys, safe_get r keys = safe_get (delete k r) keys)
  ∧ (∀ keys, safe_get r keys = safe_get (<[k:=VNone]> r) keys)
  ∧ (∀ keys, safe_get r keys = safe_get (<[k:=VStr ""]> r) keys)
  ∧ normalize_record L cfg r = normalize_record L cfg (delete k r)
  ∧ normalize_record L cfg r = normalize_record L cfg (<[k:=VNone]> r)
  ∧ normalize_record L cfg r = normalize_record L cfg (<[k:=VStr ""]> r)
  ∧ (k ∈ ts_keys → (∀ k', k' ∈ ts_keys → k' ≠ k → r !! k' = None) →
     normalize_record L cfg r = None).
Proof.
  intros Hk.
  assert (∀ keys, safe_get r keys = safe_get (delete k r) keys) as Hdel.
  { intros keys. apply safe_get_ext. intros k'.
    by apply (probe_delete_blank r k k' (VStr "null")). }
  assert (∀ w, is_blank w = true →
               ∀ keys, safe_get r keys = safe_get (<[k:=w]> r) keys) as Hins.
  { intros w Hw keys. apply safe_get_ext. intros k'.
    by apply (probe_insert_blank r k k' (VStr "null")). }
  split; [intros keys; by apply (safe_get_skip r k (VStr "null"))|].
  split; [done|].
  split; [by apply Hins|].
  split; [by apply Hins|].
  split; [by apply normalize_record_ext|].
  split; [by apply normalize_record_ext, Hins|].
  split; [by apply normalize_record_ext, Hins|].
  intros _ Hothers. apply normalize_record_no_timestamp.
  rewrite Hdel. apply safe_get_missing. intros k' Hk'.
  destruct (decide (k' = k)) as [->|Hne].
  - apply lookup_delete_eq.
  - rewrite lookup_delete_ne by done. by apply Hothers.
Qed.

Lemma C9_null_string_is_absent_witness :
  normalize_record cpython source_config
    {[ "ts" := VStr "null"; "ms_played" := VInt 180000;
       "trackName" := VStr "Song A"; "artistName" := VStr "Artist X" ]}
  = None.
Proof.
  refine (proj2 (proj2 (proj2 (proj2 (proj2 (proj2 (proj2
    (C9_null_string_is_absent cpython source_config _ "ts" _))))))) _ _).
  - reflexivity.
  - apply (bool_decide_unpack _). by vm_compute.
  - intros k' Hk' Hne. unfold ts_keys in Hk'.
    repeat (apply elem_of_cons in Hk' as [->|Hk']; [done || by vm_compute|]).
    by apply elem_of_nil in Hk'.
Defined.

(** ** Properties of the loader *)

Section Loader.

Context (W : world).

Lemma payload_records_contribution (data : value) :
  payload_records data = contribution (Loaded data).
Proof.
  destruct data as [| | | | |l|d]; try done.
  unfold payload_records, contribution.
  by destruct (d !! "history") as [[| | | | |l|d']|].
Qed.

Lemma sorted_set_elem_of (l : list string) (p : string) :
  p ∈ sorted_set l ↔ p ∈ l.
Proof.
  unfold sorted_set. rewrite merge_sort_Permutation.
  by rewrite elem_of_elements, elem_of_list_to_set.
Qed.

Lemma sorted_set_NoDup (l : list string) : NoDup (sorted_set l).
Proof.
  unfold sorted_set. rewrite merge_sort_Permutation. apply NoDup_elements.
Qed.

Lemma sorted_set_sorted (l : list string) :
  StronglySorted String.le (sorted_set l).
Proof. apply (StronglySorted_merge_sort _). Qed.

Lemma sorted_set_nil (l : list string) : sorted_set l = [] ↔ l = [].
Proof.
  split.
  - intros H. destruct l as [|p l]; [done|].
    assert (p ∈ sorted_set (p :: l)) as Hp by (apply sorted_set_elem_of; left).
    rewrite H in Hp. by apply elem_of_nil in Hp.
  - intros ->. unfold sorted_set.
    change (list_to_set []) with (∅ : gset string).
    by rewrite elements_empty.
Qed.

(** The loop either stops at the first file that cannot be opened or appends
    the contribution of every file. *)
Lemma load_loop_Return (paths : list string) (records out : list dict) :
  load_loop W paths records = Return out →
  out = records ++ concat (map (λ p, contribution (read_json W p)) paths).
Proof.
  revert records. induction paths as [|p paths IH]; intros records; simpl.
  - intros [= <-]. by rewrite app_nil_r.
  - destruct (read_json W p) as [| |data]; [done| |]; intros H.
    + by apply IH in H.
    + apply IH in H. rewrite H, payload_records_contribution.
      by rewrite <- app_assoc.
Qed.

Lemma load_loop_opens (paths : list string) (records : list dict) :
  (∀ p, p ∈ paths → read_json W p ≠ OpenFails) →
  load_loop W paths records
  = Return (records
            ++ concat (map (λ p, contribution (read_json W p)) paths)).
Proof.
  revert records. induction paths as [|p paths IH]; intros records H; simpl.
  - by rewrite app_nil_r.
  - assert (read_json W p ≠ OpenFails) as Hp by (apply H; left).
    assert (∀ q, q ∈ paths → read_json W q ≠ OpenFails) as Hq
      by (intros q Hq; apply H; by right).
    destruct (read_json W p) as [| |data]; [done| |].
    + by apply IH.
    + rewrite IH by done. rewrite payload_records_contribution.
      by rewrite <- app_assoc.
Qed.


Lemma load_streaming_history_loop (folder : string) :
  glob_json W folder ≠ [] →
  load_streaming_history W folder = load_loop W (candidates W folder) [].
Proof.
  intros H. unfold load_streaming_history, candidates.
  destruct (sorted_set (glob_json W folder)) eqn:E; [|done].
  by apply (proj1 (sorted_set_nil _)) in E.
Qed.

Lemma load_streaming_history_empty (folder : string) :
  glob_json W folder = [] →
  load_streaming_history W folder = Raise (no_input_error folder).
Proof.
  intros H. unfold load_streaming_history.
  by rewrite (proj2 (sorted_set_nil _) H).
Qed.

End Loader.

(** ** Claims about the loader *)

(** C8. The candidate files are the globbed paths without repetition, in
    sorted order. When the loader returns, its output is the concatenation
    over the candidate files, in that order, of what each file contributes:
    the object elements of a bare list, the object elements of the list held
    under [history], nothing for a file that does not decode; elements that
    are not objects are dropped. It does return as soon as there is a
    candidate file and every candidate file can be opened. *)
Theorem C8_loader_output (W : world) (folder : string) :
  (StronglySorted String.le (candidates W folder)
   ∧ NoDup (candidates W folder)
   ∧ ∀ p, p ∈ candidates W folder ↔ p ∈ glob_json W folder)
  ∧ (∀ records,
       load_streaming_history W folder = Return records →
       records
       = concat (map (λ p, contribution (read_json W p))
                     (candidates W folder)))
  ∧ (glob_json W folder ≠ [] →
     (∀ p, p ∈ glob_json W folder → read_json W p ≠ OpenFails) →
     load_streaming_history W folder
     = Return (concat (map (λ p, contribution (read_json W p))
                           (candidates W folder))))
  ∧ (∀ l, contribution (Loaded (VList l)) = omap as_dict l)
  ∧ (∀ d l, d !! "history" = Some (VList l) →
            contribution (Loaded (VDict d)) = omap as_dict l)
  ∧ (∀ l1 l2 d, omap as_dict (l1 ++ VDict d :: l2)
                = omap as_dict l1 ++ d :: omap as_dict l2)
  ∧ (∀ l1 l2 v, as_dict v = None →
                omap as_dict (l1 ++ v :: l2)
                = omap as_dict l1 ++ omap as_dict l2)
  ∧ contribution LoadFails = [].
Proof.
  split.
  { split; [apply sorted_set_sorted|].
    split; [apply sorted_set_NoDup|]. intros p. apply sorted_set_elem_of. }
  split.
  { intros records H.
    destruct (decide (glob_json W folder = [])) as [E|E].
    - by rewrite load_streaming_history_empty in H.
    - rewrite load_streaming_history_loop in H by done.
      by apply load_loop_Return in H. }
  split.
  { intros E Hopen. rewrite load_streaming_history_loop by done.
    apply (load_loop_opens W _ []). intros p Hp.
    by apply Hopen, sorted_set_elem_of. }
  split; [done|].
  split; [by intros d l H; unfold contribution; rewrite H|].
  split; [by intros l1 l2 d; rewrite omap_app|].
  split; [|done].
  intros l1 l2 v Hv. rewrite omap_app. simpl. by rewrite Hv.
Qed.

(** C10. A file that decodes to an object without a member [history] holding
    a list contributes no record, and the loop goes on as if the file were
    not among the candidates; no other key is taken for the wrapper. *)
Theorem C10_unwrapped_object (W : world) (p : string) (d : dict) :
  read_json W p = Loaded (VDict d) →
  (∀ l, d !! "history" ≠ Some (VList l)) →
  payload_records (VDict d) = []
  ∧ contribution (read_json W p) = []
  ∧ (∀ before after records,
       (∀ q, q ∈ before → read_json W q ≠ OpenFails) →
       load_loop W (before ++ p :: after) records
       = load_loop W (before ++ after) records)
  ∧ (∀ k l, k ≠ "history" → payload_records (VDict {[ k := VList l ]}) = []).
Proof.
  intros Hp Hd.
  assert (payload_records (VDict d) = []) as Hnil.
  { unfold payload_records.
    destruct (d !! "history") as [[| | | | |l|d']|] eqn:E; try done.
    by destruct (Hd l). }
  split; [done|].
  split; [by rewrite Hp, <- payload_records_contribution|].
  split.
  - intros before. induction before as [|q before IH]; intros after records H.
    + simpl. by rewrite Hp, Hnil, app_nil_r.
    + simpl. assert (read_json W q ≠ OpenFails) as Hq by (apply H; left).
      destruct (read_json W q); [done|apply IH|apply IH];
        intros q' Hq'; apply H; by right.
  - intros k l Hk. unfold payload_records.
    by rewrite lookup_singleton_ne.
Qed.

Lemma C10_unwrapped_object_witness :
  contribution (read_json sample_world "d/e.json") = [].
Proof.
  refine (proj1 (proj2 (C10_unwrapped_object sample_world "d/e.json"
    {[ "records" := VList [VDict record_song_a] ]} _ _))).
  - reflexivity.
  - intros l. by vm_compute.
Defined.

Example load_sample_world :
  load_streaming_history sample_world "d"
  = Return [record_song_a; record_null_ts].
Proof. by vm_compute. Qed.

(** ** Properties of insertion-ordered dictionaries *)

Section AssocFacts.

Context {K V : Type} `{EqDecision K}.
Implicit Types (l : list (K * V)) (f : option V → V).

Lemma assoc_upsert f l k k' :
  assoc (upsert f l k) k'
  = if decide (k = k') then Some (f (assoc l k)) else assoc l k'.
Proof.
  induction l as [|[k0 v0] l IH]; csimpl.
  - by destruct (decide (k = k')).
  - destruct (decide (k0 = k)) as [->|Hne]; csimpl.
    + by destruct (decide (k = k')).
    + destruct (decide (k0 = k')) as [->|Hne'].
      * by destruct (decide (k = k')) as [->|].
      * apply IH.
Qed.

Lemma assoc_None l k : assoc l k = None ↔ k ∉ l.*1.
Proof.
  induction l as [|[k0 v0] l IH]; csimpl.
  - split; [intros _; apply not_elem_of_nil|done].
  - destruct (decide (k0 = k)) as [->|Hne].
    + split; [done|]. intros []. left.
    + rewrite IH, not_elem_of_cons.
      split; [intros ?; split; [congruence|done]|by intros [_ ?]].
Qed.

Lemma assoc_is_Some l k : is_Some (assoc l k) ↔ k ∈ l.*1.
Proof.
  rewrite <- not_eq_None_Some, assoc_None.
  destruct (decide (k ∈ l.*1)); naive_solver.
Qed.

Lemma upsert_keys f l k :
  (upsert f l k).*1 = if decide (k ∈ l.*1) then l.*1 else l.*1 ++ [k].
Proof.
  induction l as [|[k0 v0] l IH]; csimpl.
  - done.
  - destruct (decide (k0 = k)) as [->|Hne]; csimpl.
    + destruct (decide (k ∈ k :: l.*1)) as [|Hn]; [done|]. destruct Hn. left.
    + rewrite IH. destruct (decide (k ∈ l.*1)) as [Hin|Hnin].
      * destruct (decide (k ∈ k0 :: l.*1)) as [|Hn]; [done|].
        destruct Hn. by right.
      * destruct (decide (k ∈ k0 :: l.*1)) as [Hin|]; [|done].
        apply elem_of_cons in Hin as [->|]; done.
Qed.

Lemma elem_of_upsert_keys f l k k' :
  k' ∈ (upsert f l k).*1 ↔ k' = k ∨ k' ∈ l.*1.
Proof.
  rewrite upsert_keys. destruct (decide (k ∈ l.*1)) as [Hin|Hnin].
  - split; [by right|]. by intros [->|].
  - rewrite elem_of_app, list_elem_of_singleton.
    split; intros [|]; auto.
Qed.

Lemma NoDup_upsert f l k : NoDup l.*1 → NoDup (upsert f l k).*1.
Proof.
  intros Hnd. rewrite upsert_keys. destruct (decide (k ∈ l.*1)); [done|].
  apply NoDup_app. split_and!; [done| |apply NoDup_singleton].
  by intros x Hx ->%list_elem_of_singleton.
Qed.

Lemma elem_of_assoc l k v : NoDup l.*1 → (k, v) ∈ l ↔ assoc l k = Some v.
Proof.
  induction l as [|[k0 v0] l IH]; csimpl; intros Hnd.
  - split; [by intros ?%elem_of_nil|done].
  - apply NoDup_cons in Hnd as [Hk0 Hnd].
    rewrite elem_of_cons, (IH Hnd). destruct (decide (k0 = k)) as [->|Hne].
    + split; [|naive_solver]. intros [[= ->]|Hin]; [done|].
      destruct Hk0. apply assoc_is_Some. eauto.
    + naive_solver.
Qed.

End AssocFacts.

(** ** Properties of counters *)

Section CounterFacts.

Context {K : Type} `{EqDecision K}.
Implicit Types (c : Counter K) (d : list (Z * Counter K)).

Lemma sum_Z_app (l1 l2 : list Z) : sum_Z (l1 ++ l2) = sum_Z l1 + sum_Z l2.
Proof. unfold sum_Z. induction l1 as [|x l1 IH]; csimpl; lia. Qed.

Lemma counter_get_add c k n k' :
  counter_get (counter_add c k n) k'
  = counter_get c k' + (if decide (k = k') then n else 0).
Proof.
  unfold counter_get, counter_add. rewrite assoc_upsert.
  destruct (decide (k = k')) as [->|]; csimpl; lia.
Qed.

Lemma counter_total_add c k n :
  counter_total (counter_add c k n) = counter_total c + n.
Proof.
  unfold counter_total, counter_add, sum_Z.
  induction c as [|[k0 v0] c IH]; csimpl; [lia|].
  destruct (decide (k0 = k)); csimpl; lia.
Qed.

Lemma dd_get_add d y k n y' :
  dd_get (dd_add d y k n) y'
  = if decide (y = y') then counter_add (dd_get d y) k n else dd_get d y'.
Proof.
  unfold dd_get, dd_add. rewrite assoc_upsert.
  by destruct (decide (y = y')).
Qed.

Lemma dd_counter_get_add d y k n y' k' :
  counter_get (dd_get (dd_add d y k n) y') k'
  = counter_get (dd_get d y') k'
    + (if decide (y = y' ∧ k = k') then n else 0).
Proof.
  rewrite dd_get_add. destruct (decide (y = y')) as [->|Hy].
  - rewrite counter_get_add.
    destruct (decide (k = k')), (decide (y' = y' ∧ k = k')); naive_solver.
  - destruct (decide (y = y' ∧ k = k')); [naive_solver|lia].
Qed.

Lemma dd_counter_total_add d y k n y' :
  counter_total (dd_get (dd_add d y k n) y')
  = counter_total (dd_get d y') + (if decide (y = y') then n else 0).
Proof.
  rewrite dd_get_add. destruct (decide (y = y')) as [->|Hy]; [|lia].
  apply counter_total_add.
Qed.

End CounterFacts.

(** ** Properties of the aggregator *)

Section Aggregator.

Implicit Types (st : totals) (e : canonical) (events : list canonical).

Lemma aggregate_events_snoc events e :
  aggregate_events (events ++ [e]) = add_event (aggregate_events events) e.
Proof. unfold aggregate_events. by rewrite foldl_snoc. Qed.

(** The main loop is the fold of [add_event] over the tuples of the records
    that [normalize_record] keeps. *)
Lemma aggregate_events_of_records (L : runtime) (cfg : config)
    (records : list dict) :
  aggregate L cfg records
  = aggregate_events (omap (normalize_record L cfg) records).
Proof.
  unfold aggregate, aggregate_events. generalize no_totals.
  induction records as [|r records IH]; intros st; [done|].
  simpl. unfold step at 2. destruct (normalize_record L cfg r); apply IH.
Qed.

(** What one event adds: its duration to the total of its year, to the
    bucket of its artist and to the bucket of its track, one to the stream
    count of its year, and nothing anywhere else. *)
Lemma add_event_year_total st e y :
  counter_get (year_total_ms (add_event st e)) y
  = counter_get (year_total_ms st) y
    + (if decide (ev_year e = y) then ev_ms e else 0).
Proof. destruct e as [[[[y0 ty] a] t] ms]. apply counter_get_add. Qed.

Lemma add_event_year_streams st e y :
  counter_get (year_streams (add_event st e)) y
  = counter_get (year_streams st) y + (if decide (ev_year e = y) then 1 else 0).
Proof. destruct e as [[[[y0 ty] a] t] ms]. apply counter_get_add. Qed.

Lemma add_event_artist st e y a :
  counter_get (dd_get (artist_ms (add_event st e)) y) a
  = counter_get (dd_get (artist_ms st) y) a
    + (if decide (ev_year e = y ∧ ev_artist e = a) then ev_ms e else 0).
Proof. destruct e as [[[[y0 ty] a0] t] ms]. apply dd_counter_get_add. Qed.

Lemma add_event_track st e y t :
  counter_get (dd_get (track_ms (add_event st e)) y) t
  = counter_get (dd_get (track_ms st) y) t
    + (if decide (ev_year e = y ∧ ev_item e = t) then ev_ms e else 0).
Proof. destruct e as [[[[y0 ty] a] t0] ms]. apply dd_counter_get_add. Qed.

Lemma add_event_artist_total st e y :
  counter_total (dd_get (artist_ms (add_event st e)) y)
  = counter_total (dd_get (artist_ms st) y)
    + (if decide (ev_year e = y) then ev_ms e else 0).
Proof. destruct e as [[[[y0 ty] a] t] ms]. apply dd_counter_total_add. Qed.

Lemma add_event_track_total st e y :
  counter_total (dd_get (track_ms (add_event st e)) y)
  = counter_total (dd_get (track_ms st) y)
    + (if decide (ev_year e = y) then ev_ms e else 0).
Proof. destruct e as [[[[y0 ty] a] t] ms]. apply dd_counter_total_add. Qed.

Lemma add_event_years st e y :
  y ∈ (year_total_ms (add_event st e)).*1
  ↔ y = ev_year e ∨ y ∈ (year_total_ms st).*1.
Proof. destruct e as [[[[y0 ty] a] t] ms]. apply elem_of_upsert_keys. Qed.

Lemma add_event_usable st e : usable (add_event st e) = usable st + 1.
Proof. by destruct e as [[[[y0 ty] a] t] ms]. Qed.

Lemma sum_ms_snoc_if (P : canonical → Prop) `{∀ e, Decision (P e)} events e :
  sum_ms (filter P (events ++ [e]))
  = sum_ms (filter P events) + (if decide (P e) then ev_ms e else 0).
Proof.
  unfold sum_ms. rewrite filter_app, fmap_app, sum_Z_app. f_equal.
  rewrite filter_cons, filter_nil. destruct (decide (P e)); simpl; lia.
Qed.

(** The accumulators after a run, by induction on the run. *)
Lemma year_total_run events y :
  counter_get (year_total_ms (aggregate_events events)) y
  = sum_ms (of_year y events).
Proof.
  induction events as [|e events IH] using rev_ind; [done|].
  rewrite aggregate_events_snoc, add_event_year_total, IH.
  unfold of_year. by rewrite sum_ms_snoc_if.
Qed.

Lemma year_streams_run events y :
  counter_get (year_streams (aggregate_events events)) y
  = Z.of_nat (length (of_year y events)).
Proof.
  induction events as [|e events IH] using rev_ind; [done|].
  rewrite aggregate_events_snoc, add_event_year_streams, IH.
  unfold of_year. rewrite filter_app, length_app, filter_cons, filter_nil.
  destruct (decide (ev_year e = y)); simpl; lia.
Qed.

Lemma artist_run events y a :
  counter_get (dd_get (artist_ms (aggregate_events events)) y) a
  = sum_ms (of_artist y a events).
Proof.
  induction events as [|e events IH] using rev_ind; [done|].
  rewrite aggregate_events_snoc, add_event_artist, IH.
  unfold of_artist. by rewrite sum_ms_snoc_if.
Qed.

Lemma track_run events y t :
  counter_get (dd_get (track_ms (aggregate_events events)) y) t
  = sum_ms (of_track y t events).
Proof.
  induction events as [|e events IH] using rev_ind; [done|].
  rewrite aggregate_events_snoc, add_event_track, IH.
  unfold of_track. by rewrite sum_ms_snoc_if.
Qed.

Lemma artist_total_run events y :
  counter_total (dd_get (artist_ms (aggregate_events events)) y)
  = sum_ms (of_year y events).
Proof.
  induction events as [|e events IH] using rev_ind; [done|].
  rewrite aggregate_events_snoc, add_event_artist_total, IH.
  unfold of_year. by rewrite sum_ms_snoc_if.
Qed.

Lemma track_total_run events y :
  counter_total (dd_get (track_ms (aggregate_events events)) y)
  = sum_ms (of_year y events).
Proof.
  induction events as [|e events IH] using rev_ind; [done|].
  rewrite aggregate_events_snoc, add_event_track_total, IH.
  unfold of_year. by rewrite sum_ms_snoc_if.
Qed.

Lemma years_run events y :
  y ∈ (year_total_ms (aggregate_events events)).*1
  ↔ ∃ e, e ∈ events ∧ ev_year e = y.
Proof.
  induction events as [|e events IH] using rev_ind.
  - split; [by intros ?%elem_of_nil|]. by intros (e & ?%elem_of_nil & _).
  - rewrite aggregate_events_snoc, add_event_years, IH. split.
    + intros [->|(e' & He' & <-)].
      * exists e. split; [|done]. apply elem_of_app. right. left.
      * exists e'. split; [|done]. apply elem_of_app. by left.
    + intros (e' & [He'|He']%elem_of_app & <-); [right; eauto|left].
      by apply list_elem_of_singleton in He' as ->.
Qed.

Lemma usable_run events :
  usable (aggregate_events events) = Z.of_nat (length events).
Proof.
  induction events as [|e events IH] using rev_ind; [done|].
  rewrite aggregate_events_snoc, add_event_usable, IH, length_app. simpl. lia.
Qed.

End Aggregator.

(** ** Claims about the aggregator *)

(** C1. After any sequence of events, the years present in the aggregates are
    the years of the events, and for every year the total duration is the
    sum of the artist totals of the year, the sum of the track totals of the
    year and the exact sum of the durations of the events of the year, and
    the stream count is the number of those events. Each event adds its
    duration once to the total of its year, once to the bucket of its artist
    and once to the bucket of its track, one to the stream count of its
    year, and changes no other year, artist or track. The loop of [main] is
    such a run, on the events of the records that normalize. *)
Theorem C1_year_totals (events : list canonical) (y : Z) :
  let st := aggregate_events events in
  (y ∈ (year_total_ms st).*1 ↔ ∃ e, e ∈ events ∧ ev_year e = y)
  ∧ counter_get (year_total_ms st) y = counter_total (dd_get (artist_ms st) y)
  ∧ counter_get (year_total_ms st) y = counter_total (dd_get (track_ms st) y)
  ∧ counter_get (year_total_ms st) y = sum_ms (of_year y events)
  ∧ counter_get (year_streams st) y = Z.of_nat (length (of_year y events))
  ∧ (∀ a, counter_get (dd_get (artist_ms st) y) a
          = sum_ms (of_artist y a events))
  ∧ (∀ t, counter_get (dd_get (track_ms st) y) t
          = sum_ms (of_track y t events))
  ∧ (∀ e,
       let st' := aggregate_events (events ++ [e]) in
       counter_get (year_total_ms st') y
       = counter_get (year_total_ms st) y
         + (if decide (ev_year e = y) then ev_ms e else 0)
       ∧ counter_get (year_streams st') y
         = counter_get (year_streams st) y
           + (if decide (ev_year e = y) then 1 else 0)
       ∧ (∀ a, counter_get (dd_get (artist_ms st') y) a
               = counter_get (dd_get (artist_ms st) y) a
                 + (if decide (ev_year e = y ∧ ev_artist e = a)
                    then ev_ms e else 0))
       ∧ (∀ t, counter_get (dd_get (track_ms st') y) t
               = counter_get (dd_get (track_ms st) y) t
                 + (if decide (ev_year e = y ∧ ev_item e = t)
                    then ev_ms e else 0)))
  ∧ (∀ L cfg records,
       events = omap (normalize_record L cfg) records →
       aggregate L cfg records = st).
Proof.
  intros st. subst st.
  split; [apply years_run|].
  split; [by rewrite year_total_run, artist_total_run|].
  split; [by rewrite year_total_run, track_total_run|].
  split; [apply year_total_run|].
  split; [apply year_streams_run|].
  split; [intros a; apply artist_run|].
  split; [intros t; apply track_run|].
  split; [|by intros L cfg records ->; apply aggregate_events_of_records].
  intros e st'. subst st'. rewrite aggregate_events_snoc.
  split; [apply add_event_year_total|].
  split; [apply add_event_year_streams|].
  split; [intros a; apply add_event_artist|intros t; apply add_event_track].
Qed.

(** ** Properties of the ranking *)

Section Ranking.

Context {K : Type}.
Implicit Types (c : Counter K) (x y : nat * (K * Z)).

Lemma insert_desc_by (kv : K * Z) (l : list (K * Z)) :
  insert_desc kv l = insert_by snd kv l.
Proof. induction l as [|y l IH]; simpl; [done|]. by rewrite IH. Qed.

Lemma insert_by_fmap {A B} (f : A → B) (val : B → Z) (a : A) (l : list A) :
  f <$> insert_by (val ∘ f) a l = insert_by val (f a) (f <$> l).
Proof.
  induction l as [|b l IH]; csimpl; [done|].
  destruct (val (f a) <? val (f b)); csimpl; [by rewrite IH|done].
Qed.

Lemma insert_by_Permutation {A} (val : A → Z) (a : A) (l : list A) :
  insert_by val a l ≡ₚ a :: l.
Proof.
  induction l as [|b l IH]; simpl; [done|].
  destruct (val a <? val b); [|done]. rewrite IH. apply Permutation_swap.
Qed.

Lemma sorted_desc_Permutation c : sorted_desc c ≡ₚ c.
Proof.
  unfold sorted_desc. induction c as [|kv c IH]; simpl; [done|].
  by rewrite insert_desc_by, insert_by_Permutation, IH.
Qed.

Lemma before_irrefl x : ¬ before x x.
Proof. unfold before. lia. Qed.

Lemma before_trans x y z : before x y → before y z → before x z.
Proof. unfold before. lia. Qed.

Lemma before_asym x y : before x y → before y x → False.
Proof. unfold before. lia. Qed.

Lemma before_total x y : x.1 ≠ y.1 → before x y ∨ before y x.
Proof. unfold before. lia. Qed.

(** Inserting an entry of a smaller rank than all the entries of a sorted
    arrangement keeps it sorted. *)
Lemma insert_by_before x (l : list (nat * (K * Z))) :
  StronglySorted before l →
  (∀ y, y ∈ l → (x.1 < y.1)%nat) →
  StronglySorted before (insert_by (snd ∘ snd) x l).
Proof.
  induction 1 as [|y l Hl IH Hy]; intros Hrank; simpl.
  { repeat constructor. }
  rewrite Forall_forall in Hy.
  assert (x.1 < y.1)%nat as Hxy by (apply Hrank; left).
  destruct (Z.ltb_spec x.2.2 y.2.2) as [Hlt|Hge].
  - constructor.
    + apply IH. intros z Hz. apply Hrank. by right.
    + apply Forall_forall. intros z Hz.
      rewrite insert_by_Permutation in Hz.
      apply elem_of_cons in Hz as [->|Hz]; [by left|by apply Hy].
  - constructor; [by constructor; [|apply Forall_forall]|].
    apply Forall_forall. intros z Hz.
    assert (before x y) as Hb by (unfold before; lia).
    apply elem_of_cons in Hz as [->|Hz]; [done|].
    assert (x.1 < z.1)%nat by (apply Hrank; by right).
    specialize (Hy z Hz). unfold before in *. lia.
Qed.

Lemma ranked_from_cons (i : nat) (kv : K * Z) c :
  ranked_from i (kv :: c) = (i, kv) :: ranked_from (S i) c.
Proof. done. Qed.

Lemma ranked_from_rank (i : nat) c y : y ∈ ranked_from i c → (i ≤ y.1)%nat.
Proof.
  destruct y as [j kv]. intros H%elem_of_zip_l.
  apply elem_of_seq in H. simpl. lia.
Qed.

Lemma ranked_from_snd (i : nat) c : (ranked_from i c).*2 = c.
Proof. unfold ranked_from. apply snd_zip. by rewrite length_seq. Qed.

(** The arrangement behind [sorted_desc]: the same insertions, on the ranked
    entries. *)
Lemma sorted_desc_ranked (i : nat) c :
  ∃ order,
    order ≡ₚ ranked_from i c ∧ StronglySorted before order
    ∧ order.*2 = sorted_desc c.
Proof.
  revert i. induction c as [|kv c IH]; intros i.
  { exists []. split_and!; [done|constructor|done]. }
  destruct (IH (S i)) as (order & Hperm & Hsorted & Hsnd).
  exists (insert_by (snd ∘ snd) (i, kv) order). split_and!.
  - by rewrite insert_by_Permutation, Hperm.
  - apply insert_by_before; [done|]. intros y Hy. rewrite Hperm in Hy.
    apply ranked_from_rank in Hy. simpl. lia.
  - rewrite (insert_by_fmap snd snd). unfold sorted_desc. simpl.
    fold (sorted_desc c). by rewrite insert_desc_by, Hsnd.
Qed.

Lemma before_sorted_unique (l1 l2 : list (nat * (K * Z))) :
  StronglySorted before l1 → StronglySorted before l2 → l1 ≡ₚ l2 → l1 = l2.
Proof.
  apply StronglySorted_unique_strong.
  intros x y _ _ H1 H2. destruct (before_asym x y H1 H2).
Qed.

Lemma most_common_is_top_n c (n : nat) : is_top_n c n (most_common c (Some n)).
Proof.
  destruct (sorted_desc_ranked 0 c) as (order & Hperm & Hsorted & Hsnd).
  exists order. split_and!; [done|done|by simpl; rewrite Hsnd|].
  intros order' Hperm' Hsorted'.
  apply before_sorted_unique; [done|done|]. by rewrite Hperm, Hperm'.
Qed.

(** The full listing that [save_counter_csv] writes is the whole
    arrangement. *)
Lemma most_common_all_is_top_n c :
  is_top_n c (length c) (most_common c None).
Proof.
  destruct (most_common_is_top_n c (length c))
    as (order & Hperm & Hsorted & Htake & Huniq).
  exists order. split_and!; [done|done| |done].
  simpl in *. rewrite <- Htake, take_ge; [done|].
  by rewrite sorted_desc_Permutation.
Qed.

End Ranking.

(** ** Claim about the ranking *)

(** C3. For every year, the listing of the top artists and the listing of the
    top songs are the first [TOP_N] entries of the arrangement of the year's
    entries by duration descending, ties broken by insertion order. That
    order is a strict total order on the ranked entries (irreflexive,
    transitive, and any two entries of different ranks are comparable), so
    the arrangement is unique and the listing is determined by the
    counter. *)
Theorem C3_top_n_listing (cfg : config) (st : totals) (y : Z) :
  is_top_n (dd_get (artist_ms st) y) (TOP_N cfg) (top_artists cfg st y)
  ∧ is_top_n (dd_get (track_ms st) y) (TOP_N cfg) (top_songs cfg st y)
  ∧ (∀ x : nat * (string * Z), ¬ before x x)
  ∧ (∀ x y z : nat * (string * Z), before x y → before y z → before x z)
  ∧ (∀ x y : nat * (string * Z), x.1 ≠ y.1 → before x y ∨ before y x)
  ∧ (∀ c : Counter string, NoDup (ranked c).*1)
  ∧ (∀ (c : Counter string) n l1 l2,
       is_top_n c n l1 → is_top_n c n l2 → l1 = l2).
Proof.
  split; [apply most_common_is_top_n|].
  split; [apply most_common_is_top_n|].
  split; [apply before_irrefl|].
  split; [apply before_trans|].
  split; [apply before_total|].
  split.
  - intros c. unfold ranked, ranked_from.
    rewrite fst_zip by (by rewrite length_seq). apply NoDup_seq.
  - intros c n l1 l2 (o1 & Hp1 & Hs1 & -> & _) (o2 & Hp2 & Hs2 & -> & Hu).
    by rewrite (Hu o1 Hp1 Hs1).
Qed.

(** ** Permuted input *)

Section Permuted.



Lemma assoc_Some_iff {K} `{EqDecision K} (c : Counter K) (k : K) (v : Z) :
  assoc c k = Some v ↔ k ∈ c.*1 ∧ counter_get c k = v.
Proof.
  unfold counter_get. split.
  - intros H. split; [apply assoc_is_Some; eauto|by rewrite H].
  - intros [[w Hw]%assoc_is_Some <-]. by rewrite Hw.
Qed.



Lemma sorted_desc_sorted {K} (c : Counter K) :
  StronglySorted (λ x y : K * Z, y.2 ≤ x.2) (sorted_desc c).
Proof.
  destruct (sorted_desc_ranked 0 c) as (order & _ & Hsorted & <-).
  eapply StronglySorted_fmap; [|done].
  intros x y. unfold before. lia.
Qed.


Lemma dd_keys_add {K} `{EqDecision K} (d : list (Z * Counter K)) y k n y' k' :
  k' ∈ (dd_get (dd_add d y k n) y').*1
  ↔ (y = y' ∧ k' = k) ∨ k' ∈ (dd_get d y').*1.
Proof.
  rewrite dd_get_add. destruct (decide (y = y')) as [->|Hne].
  - unfold counter_add. rewrite elem_of_upsert_keys. naive_solver.
  - naive_solver.
Qed.

Lemma dd_NoDup_add {K} `{EqDecision K} (d : list (Z * Counter K)) y k n y' :
  NoDup (dd_get d y').*1 → NoDup (dd_get d y).*1 →
  NoDup (dd_get (dd_add d y k n) y').*1.
Proof.
  intros Hy' Hy. rewrite dd_get_add. destruct (decide (y = y')); [|done].
  by apply NoDup_upsert.
Qed.

Lemma artist_keys_run (events : list canonical) (y : Z) (a : string) :
  a ∈ (dd_get (artist_ms (aggregate_events events)) y).*1
  ↔ ∃ e, e ∈ events ∧ ev_year e = y ∧ ev_artist e = a.
Proof.
  induction events as [|e events IH] using rev_ind.
  - split; [by intros ?%elem_of_nil|]. by intros (e & ?%elem_of_nil & _).
  - rewrite aggregate_events_snoc.
    destruct e as [[[[y0 ty] a0] t0] ms]. unfold add_event. simpl.
    rewrite dd_keys_add, IH. split.
    + intros [[-> ->]|(e' & He' & ?)].
      * eexists. split; [apply elem_of_app; right; left|done].
      * exists e'. split; [apply elem_of_app; by left|done].
    + intros (e' & [He'|He']%elem_of_app & <- & <-); [right; eauto|left].
      by apply list_elem_of_singleton in He' as ->.
Qed.

Lemma track_keys_run (events : list canonical) (y : Z) (t : string) :
  t ∈ (dd_get (track_ms (aggregate_events events)) y).*1
  ↔ ∃ e, e ∈ events ∧ ev_year e = y ∧ ev_item e = t.
Proof.
  induction events as [|e events IH] using rev_ind.
  - split; [by intros ?%elem_of_nil|]. by intros (e & ?%elem_of_nil & _).
  - rewrite aggregate_events_snoc.
    destruct e as [[[[y0 ty] a0] t0] ms]. unfold add_event. simpl.
    rewrite dd_keys_add, IH. split.
    + intros [[-> ->]|(e' & He' & ?)].
      * eexists. split; [apply elem_of_app; right; left|done].
      * exists e'. split; [apply elem_of_app; by left|done].
    + intros (e' & [He'|He']%elem_of_app & <- & <-); [right; eauto|left].
      by apply list_elem_of_singleton in He' as ->.
Qed.

Lemma artist_NoDup_run (events : list canonical) (y : Z) :
  NoDup (dd_get (artist_ms (aggregate_events events)) y).*1.
Proof.
  revert y. induction events as [|e events IH] using rev_ind; intros y.
  - apply NoDup_nil_2.
  - rewrite aggregate_events_snoc.
    destruct e as [[[[y0 ty] a0] t0] ms]. by apply dd_NoDup_add.
Qed.

Lemma track_NoDup_run (events : list canonical) (y : Z) :
  NoDup (dd_get (track_ms (aggregate_events events)) y).*1.
Proof.
  revert y. induction events as [|e events IH] using rev_ind; intros y.
  - apply NoDup_nil_2.
  - rewrite aggregate_events_snoc.
    destruct e as [[[[y0 ty] a0] t0] ms]. by apply dd_NoDup_add.
Qed.



End Permuted.

(** ** Claim about permuted input *)




(** ** Claim about the exit behaviour *)

Section Exit.

Context (L : runtime) (cfg : config) (W : world).






End Exit.


Example main_sample_world :
  main cpython source_config sample_world
  = Return
      [Print Banner; Makedirs "out";
       Print (YearHeader 2023); Print (TotalListening 360000);
       Print (TotalStreams 2); Print (TopArtistsHeader 10);
       Print (ArtistLine "Artist X" 360000);
       Print (TopSongsHeader 10);
       Print (SongLine "Artist X - Song A" 360000);
       Print BlankLine;
       WriteFile "out/2023_top_artists.csv"
         [Header ["artist"; "ms_listened"]; Entry "Artist X" 360000];
       WriteFile "out/2023_top_songs.csv"
         [Header ["song"; "ms_listened"]; Entry "Artist X - Song A" 360000];
       WriteFile "out/year_totals.csv"
         [Header ["year"; "total_ms"; "total_hours"; "total_streams"];
          YearRow 2023 360000 2];
       Print SavedCsvs].
Proof. by vm_compute. Qed.

Example main_no_usable_records :
  main cpython source_config
    {| glob_json := λ _, ["d/a.json"];
       read_json := λ _, Loaded (VList [VDict {[ "ts" := VStr "not-a-date" ]}])
    |}
  = Return [Print NoUsableRecords].
Proof. by vm_compute. Qed.

Example main_no_input :
  main cpython source_config
    {| glob_json := λ _, []; read_json := λ _, LoadFails |}
  = Raise (FileNotFoundError "No .json files found in ./spotify_data.").
Proof. by vm_compute. Qed.


(** * Further properties of the code *)

(** ** The field probe *)

Lemma is_blank_iff (v : value) :
  is_blank v = true ↔ v = VNone ∨ v = VStr "" ∨ v = VStr "null".
Proof.
  destruct v as [| | | |s| |]; simpl; try naive_solver.
  split.
  - intros [H|H]%orb_true_iff; apply String.eqb_eq in H as ->; auto.
  - by intros [?|[[= ->]|[= ->]]].
Qed.

Lemma safe_get_app (d : dict) (keys1 keys2 : list string) :
  safe_get d (keys1 ++ keys2)
  = match safe_get d keys1 with
    | Some v => Some v
    | None => safe_get d keys2
    end.
Proof.
  induction keys1 as [|k keys1 IH]; [done|]. simpl.
  destruct (d !! k) as [v|]; [|done]. by destruct (is_blank v).
Qed.

Lemma safe_get_None_iff (d : dict) (keys : list string) :
  safe_get d keys = None ↔ ∀ k, k ∈ keys → probe is_blank d k = None.
Proof.
  rewrite safe_get_first_present. unfold first_present.
  induction keys as [|k keys IH]; csimpl.
  - split; [by intros _ k ?%elem_of_nil|done].
  - destruct (probe is_blank d k) eqn:E.
    + split; [done|]. intros H. rewrite <- E. apply H. left.
    + rewrite IH. split.
      * by intros H k' [->|?]%elem_of_cons; [|apply H].
      * intros H k' Hk'. apply H. by right.
Qed.

(** X1. [safe_get d keys] returns [v] exactly when some key of the list holds
    [v], [v] is none of null, the empty string and the string [null], and
    every earlier key of the list is missing or holds one of those three; it
    returns nothing exactly when every key is missing or holds one of
    them. *)
Theorem X1_safe_get_first_usable (d : dict) (keys : list string) :
  (∀ v, safe_get d keys = Some v ↔
        ∃ before k after,
          keys = before ++ k :: after ∧ d !! k = Some v ∧ is_blank v = false
          ∧ ∀ k', k' ∈ before →
                  d !! k' = None ∨ ∃ w, d !! k' = Some w ∧ is_blank w = true)
  ∧ (safe_get d keys = None ↔
     ∀ k, k ∈ keys →
          d !! k = None ∨ ∃ w, d !! k = Some w ∧ is_blank w = true)
  ∧ (∀ w, is_blank w = true ↔ w = VNone ∨ w = VStr "" ∨ w = VStr "null").
Proof.
  assert (∀ k, probe is_blank d k = None ↔
               d !! k = None ∨ ∃ w, d !! k = Some w ∧ is_blank w = true)
    as Hprobe.
  { intros k. unfold probe. destruct (d !! k) as [w|]; [|naive_solver].
    destruct (is_blank w) eqn:E; split; try done; eauto.
    intros [|(w' & [= <-] & ?)]; congruence. }
  split; [|split; [|apply is_blank_iff]].
  - intros v. split.
    + induction keys as [|k keys IH]; [done|]. simpl.
      destruct (d !! k) as [w|] eqn:Ek.
      * destruct (is_blank w) eqn:Ew; simpl.
        -- intros (pre & k0 & post & -> & ? & ? & Hpre)%IH.
           exists (k :: pre), k0, post. split_and!; try done.
           intros k' [->|?]%elem_of_cons; [eauto|by apply Hpre].
        -- intros [= <-]. exists [], k, keys. split_and!; try done.
           by intros k' ?%elem_of_nil.
      * intros (pre & k0 & post & -> & ? & ? & Hpre)%IH.
        exists (k :: pre), k0, post. split_and!; try done.
        intros k' [->|?]%elem_of_cons; [eauto|by apply Hpre].
    + intros (pre & k & post & -> & Hk & Hv & Hpre).
      rewrite safe_get_app.
      replace (safe_get d pre) with (@None value).
      * simpl. by rewrite Hk, Hv.
      * symmetry. apply safe_get_None_iff. intros k' Hk'.
        by apply Hprobe, Hpre.
  - rewrite safe_get_None_iff. by setoid_rewrite Hprobe.
Qed.

(** X2. Probing a list of candidates made of two lists is probing the first
    and, when that gives nothing, the second: a candidate list can be
    extended at its end without changing what the earlier keys give. *)
Theorem X2_safe_get_append (d : dict) (keys1 keys2 : list string) :
  safe_get d (keys1 ++ keys2)
  = match safe_get d keys1 with
    | Some v => Some v
    | None => safe_get d keys2
    end.
Proof. apply safe_get_app. Qed.

(** ** The keys of an event *)

Section Trimmed.

Lemma lstrip_head (s t : string) (a : ascii) :
  lstrip s = String a t → isspace a = false.
Proof.
  induction s as [|b s IH]; simpl; [done|].
  destruct (isspace b) eqn:E; [done|]. by intros [= <- _].
Qed.

Lemma lstrip_nonspace (a : ascii) (t : string) :
  isspace a = false → lstrip (String a t) = String a t.
Proof. intros E. simpl. by rewrite E. Qed.

Lemma lstrip_snoc (s : string) (a : ascii) :
  isspace a = false → ∃ w, lstrip (s +:+ String a "") = w +:+ String a "".
Proof.
  intros Ea. induction s as [|b s IH].
  - exists "". by rewrite append_nil_l, lstrip_nonspace.
  - rewrite append_cons. simpl. destruct (isspace b); [done|].
    exists (String b s). by rewrite append_cons.
Qed.

Lemma rstrip_head (a : ascii) (t : string) :
  isspace a = false → ∃ u, rstrip (String a t) = String a u.
Proof.
  intros Ea. unfold rstrip. rewrite rev_cons.
  destruct (lstrip_snoc (String.rev t) a Ea) as [w ->].
  rewrite rev_snoc. eauto.
Qed.

Lemma lstrip_idemp (s : string) : lstrip (lstrip s) = lstrip s.
Proof.
  induction s as [|a s IH]; simpl; [done|].
  destruct (isspace a) eqn:E; [done|]. by apply lstrip_nonspace.
Qed.

Lemma rstrip_idemp (s : string) : rstrip (rstrip s) = rstrip s.
Proof. unfold rstrip. by rewrite rev_involutive, lstrip_idemp. Qed.

Lemma lstrip_strip (s : string) : lstrip (strip s) = strip s.
Proof.
  unfold strip. destruct (lstrip s) as [|a t] eqn:E; [done|].
  apply lstrip_head in E.
  destruct (rstrip_head a t E) as [u ->]. by apply lstrip_nonspace.
Qed.

Lemma strip_idemp (s : string) : strip (strip s) = strip s.
Proof.
  unfold strip at 1. rewrite lstrip_strip. unfold strip.
  apply rstrip_idemp.
Qed.

Lemma rstrip_strip (s : string) : rstrip (strip s) = strip s.
Proof. unfold strip. apply rstrip_idemp. Qed.

End Trimmed.

(** X3. The artist key and the item key of every event are trimmed: stripping
    them again changes nothing, and neither starts with a white space
    character. *)
Theorem X3_keys_are_trimmed (L : runtime) (cfg : config) (r : dict)
    (e : canonical) :
  normalize_record L cfg r = Some e →
  strip (ev_artist e) = ev_artist e
  ∧ strip (ev_item e) = ev_item e
  ∧ lstrip (ev_artist e) = ev_artist e ∧ rstrip (ev_artist e) = ev_artist e
  ∧ lstrip (ev_item e) = ev_item e ∧ rstrip (ev_item e) = ev_item e.
Proof.
  assert (∀ dt ty g i ms,
            e = labelled L dt ty g i ms →
            strip (ev_artist e) = ev_artist e
            ∧ strip (ev_item e) = ev_item e
            ∧ lstrip (ev_artist e) = ev_artist e
            ∧ rstrip (ev_artist e) = ev_artist e
            ∧ lstrip (ev_item e) = ev_item e
            ∧ rstrip (ev_item e) = ev_item e) as Hlab.
  { intros dt ty g i ms ->. unfold labelled, ev_artist, ev_item. simpl.
    by rewrite !strip_idemp, !lstrip_strip, !rstrip_strip. }
  unfold normalize_record.
  destruct (safe_get r ts_keys) as [ts|]; [|done].
  destruct (parse_dt L ts) as [dt|]; [|done].
  destruct (_ <=? 0); [done|].
  destruct (both _ _) as [[track artist]|].
  { intros [= E]. symmetry in E. by eapply Hlab. }
  destruct (INCLUDE_PODCASTS_AUDIOBOOKS cfg); [|done].
  destruct (both _ _) as [[ep show]|].
  { intros [= E]. symmetry in E. by eapply Hlab. }
  destruct (both _ _) as [[ab ch]|]; [|done].
  intros [= E]. symmetry in E. by eapply Hlab.
Qed.

Lemma X3_keys_are_trimmed_witness :
  strip "Artist X" = "Artist X"
  ∧ strip "Artist X - Song A" = "Artist X - Song A".
Proof.
  pose proof (X3_keys_are_trimmed cpython source_config record_song_a
                (2023, "song", "Artist X", "Artist X - Song A", 180000)
                eq_refl) as (H1 & H2 & _).
  exact (conj H1 H2).
Defined.

(** ** What the normalizer reads and how it classifies *)




(** X5. An event is of one of three types, and its keys are built from the
    two values its type names: a song from the artist and the track, a
    podcast from the show and the episode, an audiobook from the title and
    the chapter, the item key reading [group - item] and the artist key being
    the group. A record with a track and an artist is a song even when it
    also has podcast or audiobook fields; podcasts and audiobooks exist only
    when the configuration includes them. *)
Theorem X5_classification (L : runtime) (cfg : config) (r : dict)
    (e : canonical) :
  normalize_record L cfg r = Some e →
  let keys_of group item :=
    ev_artist e = strip (str L group)
    ∧ ev_item e = strip (str L group +:+ " - " +:+ str L item) in
  (ev_type e = "song"
   ∧ ∃ track artist,
       safe_get r track_keys = Some track
       ∧ safe_get r artist_keys = Some artist
       ∧ truthy track = true ∧ truthy artist = true
       ∧ keys_of artist track)
  ∨ (ev_type e = "podcast"
     ∧ INCLUDE_PODCASTS_AUDIOBOOKS cfg = true
     ∧ both (safe_get r track_keys) (safe_get r artist_keys) = None
     ∧ ∃ ep show,
         safe_get r ["episode_name"] = Some ep
         ∧ safe_get r ["episode_show_name"] = Some show
         ∧ truthy ep = true ∧ truthy show = true
         ∧ keys_of show ep)
  ∨ (ev_type e = "audiobook"
     ∧ INCLUDE_PODCASTS_AUDIOBOOKS cfg = true
     ∧ both (safe_get r track_keys) (safe_get r artist_keys) = None
     ∧ both (safe_get r ["episode_name"]) (safe_get r ["episode_show_name"])
       = None
     ∧ ∃ ab ch,
         safe_get r ["audiobook_title"] = Some ab
         ∧ safe_get r ["audiobook_chapter_title"] = Some ch
         ∧ truthy ab = true ∧ truthy ch = true
         ∧ keys_of ab ch).
Proof.
  assert (∀ a b x y, both a b = Some (x, y) →
            a = Some x ∧ b = Some y ∧ truthy x = true ∧ truthy y = true)
    as Hboth.
  { intros [a|] [b|] x y; simpl; try done.
    destruct (truthy a) eqn:Ea, (truthy b) eqn:Eb; simpl; try done.
    by intros [= <- <-]. }
  intros H keys_of. subst keys_of. revert H. unfold normalize_record.
  destruct (safe_get r ts_keys) as [ts|]; [|done].
  destruct (parse_dt L ts) as [dt|]; [|done].
  destruct (_ <=? 0); [done|].
  destruct (both (safe_get r track_keys) _) as [[track artist]|] eqn:E1.
  { intros [= <-]. left. split; [done|].
    apply Hboth in E1 as (-> & -> & ? & ?). by exists track, artist. }
  destruct (INCLUDE_PODCASTS_AUDIOBOOKS cfg); [|done].
  destruct (both (safe_get r ["episode_name"]) _) as [[ep show]|] eqn:E2.
  { intros [= <-]. right. left. split_and!; try done.
    apply Hboth in E2 as (E2 & E2' & ? & ?). exists ep, show.
    by rewrite E2, E2'. }
  destruct (both (safe_get r ["audiobook_title"]) _) as [[ab ch]|] eqn:E3;
    [|done].
  intros [= <-]. right. right. split_and!; try done.
  apply Hboth in E3 as (E3 & E3' & ? & ?). exists ab, ch.
  by rewrite E3, E3'.
Qed.

Lemma X5_classification_witness :
  ∃ track artist,
    safe_get record_song_a track_keys = Some track
    ∧ safe_get record_song_a artist_keys = Some artist.
Proof.
  destruct (X5_classification cpython source_config record_song_a
              (2023, "song", "Artist X", "Artist X - Song A", 180000)
              eq_refl)
    as [(_ & track & artist & H1 & H2 & _)|[(H & _)|(H & _)]].
  - exists track, artist. exact (conj H1 H2).
  - discriminate H.
  - discriminate H.
Defined.

(** X6. The probe does not look at truth values: when the first usable track
    candidate holds a falsy value (the number 0, [false], an empty list or an
    empty object), it is taken, the later candidates are not consulted, and
    the record is no song; with podcasts and audiobooks excluded it is
    discarded, even if a later track candidate holds a name. *)
Theorem X6_falsy_candidate_discards (L : runtime) (cfg : config) (r : dict)
    (v : value) :
  safe_get r track_keys = Some v →
  truthy v = false →
  (∀ e, normalize_record L cfg r = Some e → ev_type e ≠ "song")
  ∧ (INCLUDE_PODCASTS_AUDIOBOOKS cfg = false →
     normalize_record L cfg r = None).
Proof.
  intros Hv Hf.
  assert (both (safe_get r track_keys) (safe_get r artist_keys) = None)
    as Hboth.
  { rewrite Hv. unfold both. destruct (safe_get r artist_keys); [|done].
    by rewrite Hf. }
  split.
  - intros e. unfold normalize_record.
    destruct (safe_get r ts_keys) as [ts|]; [|done].
    destruct (parse_dt L ts); [|done].
    destruct (_ <=? 0); [done|]. rewrite Hboth. clear Hboth.
    destruct (INCLUDE_PODCASTS_AUDIOBOOKS cfg); [|done].
    destruct (both _ _) as [[ep show]|]; [by intros [= <-]|].
    destruct (both _ _) as [[ab ch]|]; [by intros [= <-]|done].
  - intros Hflag. unfold normalize_record.
    destruct (safe_get r ts_keys) as [ts|]; [|done].
    destruct (parse_dt L ts); [|done].
    destruct (_ <=? 0); [done|]. by rewrite Hboth, Hflag.
Qed.

Lemma X6_falsy_candidate_discards_witness :
  normalize_record cpython source_config record_zero_track = None.
Proof.
  refine (proj2 (X6_falsy_candidate_discards cpython source_config
                   record_zero_track (VInt 0) _ _) _); reflexivity.
Defined.

(** ** The outcome of the loader *)

Section LoaderOutcome.

Context (W : world).

Lemma load_loop_first_failure (before after : list string) (p : string)
    (records : list dict) :
  (∀ q, q ∈ before → read_json W q ≠ OpenFails) →
  read_json W p = OpenFails →
  load_loop W (before ++ p :: after) records = Raise (OSError p).
Proof.
  revert records. induction before as [|q before IH]; intros records Hb Hp.
  - simpl. by rewrite Hp.
  - simpl. assert (read_json W q ≠ OpenFails) as Hq by (apply Hb; left).
    destruct (read_json W q); [done|apply IH|apply IH]; try done;
      intros q' Hq'; apply Hb; by right.
Qed.

Lemma load_loop_Raise_first (paths : list string) (records : list dict)
    (e : exn) :
  load_loop W paths records = Raise e →
  ∃ before p after,
    e = OSError p ∧ paths = before ++ p :: after
    ∧ read_json W p = OpenFails
    ∧ ∀ q, q ∈ before → read_json W q ≠ OpenFails.
Proof.
  revert records. induction paths as [|q paths IH]; intros records; simpl;
    [done|].
  destruct (read_json W q) as [| |data] eqn:E.
  - intros [= <-]. exists [], q, paths. split_and!; try done.
    by intros q' ?%elem_of_nil.
  - intros (pre & p & post & -> & -> & ? & Hpre)%IH.
    exists (q :: pre), p, post. split_and!; try done.
    intros q' [->|?]%elem_of_cons; [congruence|by apply Hpre].
  - intros (pre & p & post & -> & -> & ? & Hpre)%IH.
    exists (q :: pre), p, post. split_and!; try done.
    intros q' [->|?]%elem_of_cons; [congruence|by apply Hpre].
Qed.

Lemma load_loop_ext (W' : world) (paths : list string) (records : list dict) :
  (∀ p, p ∈ paths → read_json W p = read_json W' p) →
  load_loop W paths records = load_loop W' paths records.
Proof.
  revert records. induction paths as [|p paths IH]; intros records H; [done|].
  simpl. rewrite <- (H p) by left.
  destruct (read_json W p); [done|apply IH|apply IH];
    intros q Hq; apply H; by right.
Qed.

Lemma sorted_set_same_elements (l l' : list string) :
  (∀ p, p ∈ l ↔ p ∈ l') → sorted_set l = sorted_set l'.
Proof.
  intros H. unfold sorted_set. f_equal. f_equal.
  apply set_eq. intros p. by rewrite !elem_of_list_to_set.
Qed.

End LoaderOutcome.

(** X7. The loader has three outcomes. It raises the no-input error exactly
    when the glob is empty. It raises the error of [open] for the path [p]
    exactly when [p] is the first candidate file, in sorted order, that
    cannot be opened; the files after it are not read and no record is
    returned. It returns exactly when there is a file and every globbed file
    can be opened. *)
Theorem X7_loader_outcomes (W : world) (folder : string) :
  (load_streaming_history W folder = Raise (no_input_error folder)
   ↔ glob_json W folder = [])
  ∧ (∀ p,
       load_streaming_history W folder = Raise (OSError p)
       ↔ ∃ before after,
           candidates W folder = before ++ p :: after
           ∧ read_json W p = OpenFails
           ∧ ∀ q, q ∈ before → read_json W q ≠ OpenFails)
  ∧ ((∃ records, load_streaming_history W folder = Return records)
     ↔ glob_json W folder ≠ []
       ∧ ∀ p, p ∈ glob_json W folder → read_json W p ≠ OpenFails).
Proof.
  destruct (decide (glob_json W folder = [])) as [E|E].
  - rewrite (load_streaming_history_empty W folder E).
    assert (candidates W folder = []) as Hc
      by (by apply sorted_set_nil).
    split; [done|]. split.
    + intros p. split; [done|]. intros (pre & post & H & _).
      rewrite Hc in H. by destruct pre.
    + split; [by intros [? ?]|by intros [? _]].
  - rewrite (load_streaming_history_loop W folder E). split; [|split].
    + split; [|done]. intros H.
      by apply load_loop_Raise_first in H as (? & ? & ? & ? & _).
    + intros p. split.
      * intros (pre & p' & post & [= <-] & ? & ? & ?)%load_loop_Raise_first.
        eauto.
      * intros (pre & post & -> & ? & ?). by apply load_loop_first_failure.
    + split.
      * intros [records H]. split; [done|]. intros p Hp Hopen.
        apply sorted_set_elem_of, list_elem_of_split in Hp
          as (l1 & l2 & Hsplit).
        assert (∃ q, load_loop W (candidates W folder) [] = Raise (OSError q))
          as [q Hq]; [|congruence].
        unfold candidates. rewrite Hsplit. clear Hsplit H.
        generalize (@nil dict).
        induction l1 as [|a l1 IH]; intros acc; simpl.
        -- rewrite Hopen. eauto.
        -- destruct (read_json W a); eauto.
      * intros [_ H]. eexists. apply load_loop_opens. intros p Hp.
        by apply H, sorted_set_elem_of.
Qed.

(** X8. The loader depends on the set of globbed paths only: two listings of
    the folder with the same paths, in any order and with any repetition,
    give the same outcome when the files read the same. *)
Theorem X8_glob_order_is_irrelevant (W W' : world) (folder : string) :
  (∀ p, p ∈ glob_json W folder ↔ p ∈ glob_json W' folder) →
  (∀ p, read_json W p = read_json W' p) →
  load_streaming_history W folder = load_streaming_history W' folder.
Proof.
  intros Hglob Hread. unfold load_streaming_history.
  rewrite (sorted_set_same_elements _ _ Hglob).
  destruct (sorted_set (glob_json W' folder)); [done|].
  by apply load_loop_ext.
Qed.

Lemma X8_glob_order_is_irrelevant_witness :
  load_streaming_history sample_world "d"
  = load_streaming_history
      {| glob_json := λ _, ["d/e.json"; "d/c.json"; "d/a.json"; "d/b.json"];
         read_json := read_json sample_world |} "d".
Proof.
  apply X8_glob_order_is_irrelevant; [|done].
  intros p. simpl. split; intros H;
    repeat (apply elem_of_cons in H as [->|H]; [set_solver|]);
    by apply elem_of_nil in H.
Defined.

(** ** Invariants of the accumulators *)

Section Accumulators.

Implicit Types (events : list canonical).

Lemma sum_ms_app events events' :
  sum_ms (events ++ events') = sum_ms events + sum_ms events'.
Proof. unfold sum_ms. by rewrite fmap_app, sum_Z_app. Qed.

Lemma grand_total_run events :
  counter_total (year_total_ms (aggregate_events events)) = sum_ms events.
Proof.
  induction events as [|e events IH] using rev_ind; [done|].
  rewrite aggregate_events_snoc, sum_ms_app, <- IH.
  destruct e as [[[[y ty] a] t] ms]. unfold add_event. simpl.
  rewrite counter_total_add. unfold sum_ms, sum_Z. simpl. lia.
Qed.

Lemma grand_streams_run events :
  counter_total (year_streams (aggregate_events events))
  = Z.of_nat (length events).
Proof.
  induction events as [|e events IH] using rev_ind; [done|].
  rewrite aggregate_events_snoc, length_app.
  destruct e as [[[[y ty] a] t] ms]. unfold add_event. simpl.
  rewrite counter_total_add, IH. lia.
Qed.

(** Counters whose counts are all positive. *)
Lemma counter_add_positive {K} `{EqDecision K} (c : Counter K) (k : K)
    (n : Z) :
  0 < n → Forall (λ kv, 0 < kv.2) c →
  Forall (λ kv, 0 < kv.2) (counter_add c k n).
Proof.
  intros Hn. unfold counter_add.
  induction c as [|[k0 v0] c IH]; simpl; intros Hc.
  - repeat constructor. simpl. lia.
  - apply Forall_cons in Hc as [Hv0 Hc]. simpl in Hv0.
    destruct (decide (k0 = k)); constructor; simpl; auto; lia.
Qed.

Lemma dd_add_positive {K} `{EqDecision K} (d : list (Z * Counter K))
    (y : Z) (k : K) (n : Z) :
  0 < n → (∀ y', Forall (λ kv, 0 < kv.2) (dd_get d y')) →
  ∀ y', Forall (λ kv, 0 < kv.2) (dd_get (dd_add d y k n) y').
Proof.
  intros Hn Hd y'. rewrite dd_get_add. destruct (decide (y = y')); [|done].
  by apply counter_add_positive.
Qed.

Lemma positive_run events :
  Forall (λ e, 0 < ev_ms e) events →
  let st := aggregate_events events in
  (∀ y, Forall (λ kv, 0 < kv.2) (dd_get (artist_ms st) y))
  ∧ (∀ y, Forall (λ kv, 0 < kv.2) (dd_get (track_ms st) y))
  ∧ Forall (λ kv, 0 < kv.2) (year_total_ms st)
  ∧ Forall (λ kv, 0 < kv.2) (year_streams st).
Proof.
  induction events as [|e events IH] using rev_ind; intros Hpos st.
  { subst st. split_and!; try done; intros y; constructor. }
  apply Forall_app in Hpos as [Hpos He]. rewrite Forall_singleton in He.
  destruct (IH Hpos) as (Ha & Ht & Hy & Hs). subst st.
  rewrite aggregate_events_snoc.
  destruct e as [[[[y0 ty] a] t] ms]. unfold add_event. simpl in *.
  split_and!.
  - by apply dd_add_positive.
  - by apply dd_add_positive.
  - by apply counter_add_positive.
  - by apply counter_add_positive.
Qed.

Lemma normalized_positive (L : runtime) (cfg : config) (records : list dict) :
  Forall (λ e, 0 < ev_ms e) (omap (normalize_record L cfg) records).
Proof.
  apply Forall_forall. intros e (r & _ & Hr)%list_elem_of_omap.
  by destruct (normalize_record_Some L cfg r e Hr) as (?&?&?&?&?&?&?).
Qed.

Lemma first_seen_snoc {K} `{EqDecision K} (l : list K) (k : K) :
  first_seen (l ++ [k])
  = if decide (k ∈ first_seen l) then first_seen l else first_seen l ++ [k].
Proof. unfold first_seen. by rewrite foldl_snoc. Qed.

Lemma dd_keys_add_eq {K} `{EqDecision K} (d : list (Z * Counter K))
    (y : Z) (k : K) (n : Z) (y' : Z) :
  (dd_get (dd_add d y k n) y').*1
  = if decide (y = y')
    then (if decide (k ∈ (dd_get d y').*1) then (dd_get d y').*1
          else (dd_get d y').*1 ++ [k])
    else (dd_get d y').*1.
Proof.
  rewrite dd_get_add. destruct (decide (y = y')) as [->|]; [|done].
  unfold counter_add. apply upsert_keys.
Qed.

Lemma artist_order_run events (y : Z) :
  (dd_get (artist_ms (aggregate_events events)) y).*1
  = first_seen (ev_artist <$> of_year y events).
Proof.
  induction events as [|e events IH] using rev_ind; [done|].
  rewrite aggregate_events_snoc. unfold of_year.
  rewrite filter_app, filter_cons, filter_nil.
  destruct e as [[[[y0 ty] a] t] ms]. unfold add_event. simpl.
  rewrite dd_keys_add_eq, IH. unfold ev_year. simpl.
  destruct (decide (y0 = y)) as [->|].
  - rewrite fmap_app. change (ev_artist <$> [(y, ty, a, t, ms)]) with [a].
    by rewrite first_seen_snoc.
  - by rewrite app_nil_r.
Qed.

Lemma track_order_run events (y : Z) :
  (dd_get (track_ms (aggregate_events events)) y).*1
  = first_seen (ev_item <$> of_year y events).
Proof.
  induction events as [|e events IH] using rev_ind; [done|].
  rewrite aggregate_events_snoc. unfold of_year.
  rewrite filter_app, filter_cons, filter_nil.
  destruct e as [[[[y0 ty] a] t] ms]. unfold add_event. simpl.
  rewrite dd_keys_add_eq, IH. unfold ev_year. simpl.
  destruct (decide (y0 = y)) as [->|].
  - rewrite fmap_app. change (ev_item <$> [(y, ty, a, t, ms)]) with [t].
    by rewrite first_seen_snoc.
  - by rewrite app_nil_r.
Qed.

Lemma year_order_run events :
  (year_total_ms (aggregate_events events)).*1 = first_seen (ev_year <$> events)
  ∧ (year_streams (aggregate_events events)).*1
    = first_seen (ev_year <$> events).
Proof.
  induction events as [|e events [IH1 IH2]] using rev_ind; [done|].
  rewrite aggregate_events_snoc, fmap_app.
  destruct e as [[[[y0 ty] a] t] ms].
  change (ev_year <$> [(y0, ty, a, t, ms)]) with [y0].
  rewrite first_seen_snoc. unfold add_event, counter_add. simpl.
  by rewrite !upsert_keys, IH1, IH2.
Qed.

End Accumulators.

(** X9. Over all years, the year totals add up to the sum of the durations of
    all events and the stream counts add up to [usable], the number of
    records that normalized, which is at most the number of records. *)
Theorem X9_grand_totals (L : runtime) (cfg : config) (records : list dict) :
  let st := aggregate L cfg records in
  let events := omap (normalize_record L cfg) records in
  counter_total (year_total_ms st) = sum_ms events
  ∧ counter_total (year_streams st) = usable st
  ∧ usable st = Z.of_nat (length events)
  ∧ 0 ≤ usable st ≤ Z.of_nat (length records).
Proof.
  intros st events. subst st events.
  rewrite aggregate_events_of_records, grand_total_run, grand_streams_run,
    usable_run.
  split_and!; try done; [lia|].
  apply Nat2Z.inj_le. induction records as [|r records IH]; csimpl; [done|].
  destruct (normalize_record L cfg r); simpl; lia.
Qed.

(** X10. After the main loop every count is positive: the duration of every
    artist entry and of every track entry of every year, the total duration
    and the stream count of every year present. *)
Theorem X10_counts_are_positive (L : runtime) (cfg : config)
    (records : list dict) :
  let st := aggregate L cfg records in
  (∀ y a v, (a, v) ∈ dd_get (artist_ms st) y → 0 < v)
  ∧ (∀ y t v, (t, v) ∈ dd_get (track_ms st) y → 0 < v)
  ∧ (∀ y v, (y, v) ∈ year_total_ms st → 0 < v)
  ∧ (∀ y n, (y, n) ∈ year_streams st → 0 < n).
Proof.
  intros st. subst st. rewrite aggregate_events_of_records.
  destruct (positive_run _ (normalized_positive L cfg records))
    as (Ha & Ht & Hy & Hs).
  split_and!.
  - intros y a v Hin. specialize (Ha y). rewrite Forall_forall in Ha.
    apply (Ha _ Hin).
  - intros y t v Hin. specialize (Ht y). rewrite Forall_forall in Ht.
    apply (Ht _ Hin).
  - intros y v Hin. rewrite Forall_forall in Hy. apply (Hy _ Hin).
  - intros y n Hin. rewrite Forall_forall in Hs. apply (Hs _ Hin).
Qed.

(** X11. Aggregation is additive over batches: after the records of two
    batches in a row, every year total, stream count, artist total and track
    total is the sum of what each batch gives alone, and so is [usable]. *)
Theorem X11_batches_add_up (L : runtime) (cfg : config)
    (batch1 batch2 : list dict) (y : Z) :
  let st := aggregate L cfg (batch1 ++ batch2) in
  let st1 := aggregate L cfg batch1 in
  let st2 := aggregate L cfg batch2 in
  counter_get (year_total_ms st) y
  = counter_get (year_total_ms st1) y + counter_get (year_total_ms st2) y
  ∧ counter_get (year_streams st) y
    = counter_get (year_streams st1) y + counter_get (year_streams st2) y
  ∧ (∀ a, counter_get (dd_get (artist_ms st) y) a
          = counter_get (dd_get (artist_ms st1) y) a
            + counter_get (dd_get (artist_ms st2) y) a)
  ∧ (∀ t, counter_get (dd_get (track_ms st) y) t
          = counter_get (dd_get (track_ms st1) y) t
            + counter_get (dd_get (track_ms st2) y) t)
  ∧ usable st = usable st1 + usable st2.
Proof.
  intros st st1 st2. subst st st1 st2.
  rewrite !aggregate_events_of_records, omap_app.
  rewrite !year_total_run, !year_streams_run, !usable_run.
  unfold of_year. rewrite filter_app, sum_ms_app, !length_app.
  split_and!; try lia.
  - intros a. rewrite !artist_run. unfold of_artist.
    by rewrite filter_app, sum_ms_app.
  - intros t. rewrite !track_run. unfold of_track.
    by rewrite filter_app, sum_ms_app.
Qed.

(** X12. The entries of a year's counters stand in first-seen order: the
    artists (the tracks) of the year in the order in which the events of the
    year first name them, each once; the years in the order in which the
    events first reach them. This is the insertion order that breaks the ties
    of the ranking. *)
Theorem X12_first_seen_order (L : runtime) (cfg : config)
    (records : list dict) (y : Z) :
  let st := aggregate L cfg records in
  let events := omap (normalize_record L cfg) records in
  (dd_get (artist_ms st) y).*1 = first_seen (ev_artist <$> of_year y events)
  ∧ (dd_get (track_ms st) y).*1 = first_seen (ev_item <$> of_year y events)
  ∧ (year_total_ms st).*1 = first_seen (ev_year <$> events)
  ∧ (year_streams st).*1 = first_seen (ev_year <$> events)
  ∧ NoDup (dd_get (artist_ms st) y).*1
  ∧ NoDup (dd_get (track_ms st) y).*1.
Proof.
  intros st events. subst st events. rewrite aggregate_events_of_records.
  split; [apply artist_order_run|].
  split; [apply track_order_run|].
  split; [apply year_order_run|].
  split; [apply year_order_run|].
  split; [apply artist_NoDup_run|apply track_NoDup_run].
Qed.

Example first_seen_sample :
  first_seen ["b"; "a"; "b"; "c"; "a"] = ["b"; "a"; "c"].
Proof. by vm_compute. Qed.

(** ** What the listings show *)

Section Listings.

Context {K : Type}.
Implicit Types (c : Counter K).

Lemma most_common_sorted c (n : nat) :
  StronglySorted (λ x y : K * Z, y.2 ≤ x.2) (most_common c (Some n)).
Proof.
  simpl. pose proof (sorted_desc_sorted c) as H.
  rewrite <- (take_drop n (sorted_desc c)) in H.
  by apply StronglySorted_app_1_l in H.
Qed.

Lemma most_common_dominates c (n : nat) (x z : K * Z) :
  x ∈ most_common c (Some n) → z ∈ c → z ∉ most_common c (Some n) →
  z.2 ≤ x.2.
Proof.
  simpl. intros Hx Hz Hnz. pose proof (sorted_desc_sorted c) as H.
  rewrite <- sorted_desc_Permutation in Hz.
  rewrite <- (take_drop n (sorted_desc c)) in H, Hz.
  apply elem_of_app in Hz as [Hz|Hz]; [done|].
  by apply (StronglySorted_app_1_elem_of _ _ _ _ _ H).
Qed.

Lemma most_common_subseteq c (n : nat) (x : K * Z) :
  x ∈ most_common c (Some n) → x ∈ c.
Proof.
  simpl. intros H%subseteq_take. by rewrite sorted_desc_Permutation in H.
Qed.

Lemma most_common_NoDup c (n : nat) :
  NoDup c.*1 → NoDup (most_common c (Some n)).*1.
Proof.
  simpl. intros H. rewrite fmap_take.
  eapply sublist_NoDup; [|apply sublist_take].
  by rewrite sorted_desc_Permutation.
Qed.

Lemma most_common_length c (n : nat) :
  length (most_common c (Some n)) = (n `min` length c)%nat.
Proof. simpl. by rewrite length_take, sorted_desc_Permutation. Qed.

Lemma most_common_all c (n : nat) :
  (length c ≤ n)%nat → most_common c (Some n) = most_common c None.
Proof.
  simpl. intros H. apply take_ge. by rewrite sorted_desc_Permutation.
Qed.

End Listings.

(** X13. A listing is in non-increasing order of duration, and no entry left
    out of it has a longer duration than an entry in it. *)
Theorem X13_top_n_dominates (cfg : config) (st : totals) (y : Z) :
  StronglySorted (λ x z : string * Z, z.2 ≤ x.2) (top_artists cfg st y)
  ∧ StronglySorted (λ x z : string * Z, z.2 ≤ x.2) (top_songs cfg st y)
  ∧ (∀ x z, x ∈ top_artists cfg st y → z ∈ dd_get (artist_ms st) y →
            z ∉ top_artists cfg st y → z.2 ≤ x.2)
  ∧ (∀ x z, x ∈ top_songs cfg st y → z ∈ dd_get (track_ms st) y →
            z ∉ top_songs cfg st y → z.2 ≤ x.2).
Proof.
  split; [apply most_common_sorted|].
  split; [apply most_common_sorted|].
  split; intros x z; apply most_common_dominates.
Qed.

(** X14. After the main loop, the listing of the top artists of a year names
    no artist twice, has [TOP_N] lines or as many as the year has artists if
    that is fewer, and in that case lists them all; every line shows an
    artist of an event of the year with the exact sum of the durations of
    that artist's events in the year. The same holds of the top songs. *)
Theorem X14_listing_lines (L : runtime) (cfg : config) (records : list dict)
    (y : Z) :
  let st := aggregate L cfg records in
  let events := omap (normalize_record L cfg) records in
  (NoDup (top_artists cfg st y).*1
   ∧ length (top_artists cfg st y)
     = (TOP_N cfg `min` length (dd_get (artist_ms st) y))%nat
   ∧ ((length (dd_get (artist_ms st) y) ≤ TOP_N cfg)%nat →
      top_artists cfg st y ≡ₚ dd_get (artist_ms st) y)
   ∧ ∀ a v, (a, v) ∈ top_artists cfg st y →
            v = sum_ms (of_artist y a events)
            ∧ ∃ e, e ∈ events ∧ ev_year e = y ∧ ev_artist e = a)
  ∧ (NoDup (top_songs cfg st y).*1
     ∧ length (top_songs cfg st y)
       = (TOP_N cfg `min` length (dd_get (track_ms st) y))%nat
     ∧ ((length (dd_get (track_ms st) y) ≤ TOP_N cfg)%nat →
        top_songs cfg st y ≡ₚ dd_get (track_ms st) y)
     ∧ ∀ t v, (t, v) ∈ top_songs cfg st y →
              v = sum_ms (of_track y t events)
              ∧ ∃ e, e ∈ events ∧ ev_year e = y ∧ ev_item e = t).
Proof.
  intros st events. subst st events. unfold top_artists, top_songs.
  rewrite aggregate_events_of_records.
  set (events := omap (normalize_record L cfg) records).
  split.
  - split; [apply most_common_NoDup, artist_NoDup_run|].
    split; [apply most_common_length|].
    split.
    { intros H. rewrite most_common_all by done. apply sorted_desc_Permutation. }
    intros a v Hin%most_common_subseteq.
    apply elem_of_assoc in Hin; [|apply artist_NoDup_run].
    apply assoc_Some_iff in Hin as [Hkey <-].
    split; [apply artist_run|by apply artist_keys_run].
  - split; [apply most_common_NoDup, track_NoDup_run|].
    split; [apply most_common_length|].
    split.
    { intros H. rewrite most_common_all by done. apply sorted_desc_Permutation. }
    intros t v Hin%most_common_subseteq.
    apply elem_of_assoc in Hin; [|apply track_NoDup_run].
    apply assoc_Some_iff in Hin as [Hkey <-].
    split; [apply track_run|by apply track_keys_run].
Qed.

(** X15. [save_counter_csv] writes one file at the given path: the header
    row, then one row for each entry of the counter, all of them, in
    non-increasing order of count. The lines of the top-[n] listing of the
    same counter are the first [n] of those rows. *)
Theorem X15_csv_holds_full_ranking (path left right : string)
    (counter : Counter string) (n : nat) :
  ∃ entries,
    save_counter_csv path counter left right
    = WriteFile path
        (Header [left; right] :: map (λ kv, Entry kv.1 kv.2) entries)
    ∧ entries ≡ₚ counter
    ∧ StronglySorted (λ x z : string * Z, z.2 ≤ x.2) entries
    ∧ most_common counter (Some n) = take n entries.
Proof.
  exists (sorted_desc counter). split_and!; [done| | |done].
  - apply sorted_desc_Permutation.
  - apply sorted_desc_sorted.
Qed.

(** ** The years of the report *)

Section Years.

Lemma year_NoDup_run (events : list canonical) :
  NoDup (year_total_ms (aggregate_events events)).*1.
Proof.
  induction events as [|e events IH] using rev_ind; [apply NoDup_nil_2|].
  rewrite aggregate_events_snoc. destruct e as [[[[y0 ty] a] t] ms].
  unfold add_event, counter_add. simpl. by apply NoDup_upsert.
Qed.

Lemma sorted_NoDup_lt (l : list Z) :
  StronglySorted Z.le l → NoDup l → StronglySorted Z.lt l.
Proof.
  induction 1 as [|x l Hl IH Hx]; intros Hnd; [constructor|].
  apply NoDup_cons in Hnd as [Hnin Hnd]. constructor; [by apply IH|].
  rewrite Forall_forall in Hx. apply Forall_forall. intros z Hz.
  specialize (Hx z Hz). assert (x ≠ z) by (by intros ->). lia.
Qed.


End Years.

(** X16. The report goes through the years in strictly ascending order, each
    year once, and the years it goes through are exactly the years of the
    events. *)
Theorem X16_years_ascending (L : runtime) (cfg : config)
    (records : list dict) :
  let st := aggregate L cfg records in
  let events := omap (normalize_record L cfg) records in
  StronglySorted Z.lt (years_of st)
  ∧ ∀ y, y ∈ years_of st ↔ ∃ e, e ∈ events ∧ ev_year e = y.
Proof.
  intros st events. subst st events. rewrite aggregate_events_of_records.
  unfold years_of. split.
  - apply sorted_NoDup_lt.
    + apply (StronglySorted_merge_sort _).
    + rewrite merge_sort_Permutation. apply year_NoDup_run.
  - intros y. rewrite merge_sort_Permutation. apply years_run.
Qed.

(** ** The files of the report *)

Section Files.











Lemma written_paths_app (l1 l2 : list effect) :
  written_paths (l1 ++ l2) = written_paths l1 ++ written_paths l2.
Proof. apply omap_app. Qed.

Lemma written_paths_prints {A} (f : A → line) (l : list A) :
  written_paths (map (λ x, Print (f x)) l) = [].
Proof. induction l as [|x l IH]; [done|]. by csimpl. Qed.

Lemma written_paths_report_year (cfg : config) (st : totals) (y : Z) :
  written_paths (report_year cfg st y)
  = if SAVE_CSV cfg then [artists_csv y; songs_csv y] else [].
Proof.
  unfold report_year. rewrite !written_paths_app, !written_paths_prints.
  by destruct (SAVE_CSV cfg).
Qed.

Lemma written_paths_years (cfg : config) (st : totals) (years : list Z) :
  written_paths (concat (map (report_year cfg st) years))
  = if SAVE_CSV cfg
    then concat (map (λ y, [artists_csv y; songs_csv y]) years)
    else [].
Proof.
  induction years as [|y years IH]; [by destruct (SAVE_CSV cfg)|].
  change (concat (map (report_year cfg st) (y :: years)))
    with (report_year cfg st y ++ concat (map (report_year cfg st) years)).
  rewrite written_paths_app, written_paths_report_year, IH.
  by destruct (SAVE_CSV cfg).
Qed.

Lemma written_paths_report (cfg : config) (st : totals) :
  written_paths (report cfg st)
  = if (usable st =? 0) || negb (SAVE_CSV cfg) then []
    else concat (map (λ y, [artists_csv y; songs_csv y]) (years_of st))
         ++ [totals_csv].
Proof.
  unfold report. destruct (usable st =? 0); [done|].
  rewrite !written_paths_app, written_paths_years.
  by destruct (SAVE_CSV cfg).
Qed.

Lemma elem_of_concat_map {A B} (f : A → list B) (l : list A) (x : B) :
  x ∈ concat (map f l) ↔ ∃ y, y ∈ l ∧ x ∈ f y.
Proof.
  induction l as [|a l IH].
  - split; [by intros ?%elem_of_nil|by intros (? & ?%elem_of_nil & _)].
  - change (concat (map f (a :: l))) with (f a ++ concat (map f l)).
    rewrite elem_of_app, IH. split.
    + intros [?|(y & ? & ?)]; [exists a|exists y]; split; auto;
        [left|by right].
    + intros (y & [->|?]%elem_of_cons & ?); eauto.
Qed.

Lemma report_prints_only (cfg : config) (st : totals) (eff : effect) :
  SAVE_CSV cfg = false → eff ∈ report cfg st → ∃ l, eff = Print l.
Proof.
  intros Hsave. unfold report. destruct (usable st =? 0).
  { intros ->%list_elem_of_singleton. eauto. }
  rewrite Hsave, app_nil_r. simpl.
  intros [->|Hin]%elem_of_cons; [eauto|].
  apply elem_of_concat_map in Hin as (y & _ & Hin).
  revert Hin. unfold report_year. rewrite Hsave, app_nil_r.
  rewrite !elem_of_app, !elem_of_cons, !list_elem_of_fmap, !elem_of_nil.
  intros H. repeat (destruct H as [H|H]); try done;
    try (destruct H as (? & -> & _)); subst; eauto.
Qed.

End Files.

(** X17. With [SAVE_CSV] off, [main] touches no file and no directory: every
    effect of a run that returns is a printed line. *)
Theorem X17_no_files_without_save_csv (L : runtime) (cfg : config)
    (W : world) (effects : list effect) :
  SAVE_CSV cfg = false →
  main L cfg W = Return effects →
  (∀ eff, eff ∈ effects → ∃ l, eff = Print l)
  ∧ written_paths effects = [].
Proof.
  intros Hsave. unfold main.
  destruct (load_streaming_history W (DATA_FOLDER cfg)) as [|records]; [done|].
  intros [= <-]. split.
  - intros eff. by apply report_prints_only.
  - rewrite written_paths_report, Hsave. simpl. by rewrite orb_true_r.
Qed.

Lemma X17_no_files_without_save_csv_witness :
  written_paths
    [Print Banner; Print (YearHeader 2023); Print (TotalListening 360000);
     Print (TotalStreams 2); Print (TopArtistsHeader 10);
     Print (ArtistLine "Artist X" 360000); Print (TopSongsHeader 10);
     Print (SongLine "Artist X - Song A" 360000); Print BlankLine]
  = [].
Proof.
  refine (proj2 (X17_no_files_without_save_csv cpython
    (Config "./spotify_data" 10 false false) sample_world _ _ _)).
  - reflexivity.
  - by vm_compute.
Defined.


(** ** Timestamps and white space *)

(** X19. [parse_dt] reads its argument through its text only, and the white
    space around that text does not count: a value parses like the string
    [str] gives for it, and a string parses like the same string
    stripped. *)
Theorem X19_parse_dt_ignores_outer_space (L : runtime) (ts : value)
    (s : string) :
  parse_dt L ts = parse_dt L (VStr (str L ts))
  ∧ parse_dt L (VStr s) = parse_dt L (VStr (strip s))
  ∧ timestamp_text L (VStr s) = timestamp_text L (VStr (strip s)).
Proof.
  split; [done|].
  rewrite !parse_dt_attempts.
  assert (timestamp_text L (VStr s) = timestamp_text L (VStr (strip s)))
    as ->; [|done].
  unfold timestamp_text. simpl. by rewrite strip_idemp.
Qed.

(** ** The totals the report shows *)


